(** * Static torque and power of a six-joint serial arm

    A shallow embedding of [performCalculations] (lib/calculations.ts) and
    the properties that its specification states about it.

    The function works on the JavaScript type [number]. The embedding is
    written once, over an interface [JsNumber] that lists the operations and
    the literals the function uses, and is read at two instances:

    - [float], the IEEE 754 binary64 numbers of the kernel, which are the
      values a JavaScript engine computes with: rounding, overflow, signed
      zeros and NaN are those of the engine;
    - [Q], exact rational arithmetic, in which the algebraic identities
      behind the formulas are stated.

    What is proved for every instance holds in binary64. A statement at
    [Q] says so: it is one about the formulas, up to rounding. *)

From Stdlib Require Import List String Ascii Bool Arith ZArith QArith Lia Lqa.
From Stdlib Require Import Permutation DecimalString Qfield.
From Stdlib Require Import PrimFloat SpecFloat FloatOps FloatAxioms.
Import ListNotations.

Set Warnings "-inexact-float".
Close Scope Q_scope.
Open Scope nat_scope.

(** ** Numbers *)

(** The operations of JavaScript numbers that the function uses, and the
    numeric literals that occur in it. [neqb] is [!==], and [sqr x] is
    [x ** 2]. *)
Class JsNumber (num : Type) : Type := {
  add : num -> num -> num;
  sub : num -> num -> num;
  mul : num -> num -> num;
  div : num -> num -> num;
  sqr : num -> num;
  ltb : num -> num -> bool;
  leb : num -> num -> bool;
  neqb : num -> num -> bool;
  lit_0 : num;
  lit_1 : num;
  lit_2 : num;
  lit_1000 : num;
  lit_9550 : num;
  lit_9_80665 : num;
  lit_3_141592653589793 : num
}.

Declare Scope num_scope.
Delimit Scope num_scope with num.
Infix "+" := add : num_scope.
Infix "-" := sub : num_scope.
Infix "*" := mul : num_scope.
Infix "/" := div : num_scope.
Infix "<?" := ltb : num_scope.
Infix "<=?" := leb : num_scope.
Infix "!==" := neqb (at level 70, no associativity) : num_scope.

(** binary64: every operation rounds to nearest, ties to even; a comparison
    with NaN is false and [!==] with NaN is true; [-0] and [0] are equal.
    ECMAScript leaves the precision of [**] to the engine; [x ** 2] is taken
    to be the correctly rounded square [x * x]. *)
#[export] Instance JsNumber_float : JsNumber float := {|
  add := PrimFloat.add;
  sub := PrimFloat.sub;
  mul := PrimFloat.mul;
  div := PrimFloat.div;
  sqr := fun x => PrimFloat.mul x x;
  ltb := PrimFloat.ltb;
  leb := PrimFloat.leb;
  neqb := fun x y => negb (PrimFloat.eqb x y);
  lit_0 := 0%float;
  lit_1 := 1%float;
  lit_2 := 2%float;
  lit_1000 := 1000%float;
  lit_9550 := 9550%float;
  lit_9_80665 := 9.80665%float;
  lit_3_141592653589793 := 3.141592653589793%float
|}.

(** Exact rationals. Division by zero is never reached: both divisions of
    the function are guarded, and the third divides by the literal 2. *)
#[export] Instance JsNumber_Q : JsNumber Q := {|
  add := Qplus;
  sub := Qminus;
  mul := Qmult;
  div := Qdiv;
  sqr := fun x => Qmult x x;
  ltb := fun x y => negb (Qle_bool y x);
  leb := Qle_bool;
  neqb := fun x y => negb (Qeq_bool x y);
  lit_0 := 0%Q;
  lit_1 := 1%Q;
  lit_2 := 2%Q;
  lit_1000 := 1000%Q;
  lit_9550 := 9550%Q;
  lit_9_80665 := 9.80665%Q;
  lit_3_141592653589793 := 3.141592653589793%Q
|}.

(** ** Errors *)

(** A computation that may throw: [inl msg] is [throw new Error(msg)]. *)
Definition exc (A : Type) : Type := (string + A)%type.

Definition ret {A : Type} (x : A) : exc A := inr x.

Definition bind {A B : Type} (c : exc A) (k : A -> exc B) : exc B :=
  match c with
  | inl msg => inl msg
  | inr x => k x
  end.

Definition throw_if (c : bool) (msg : string) : exc unit :=
  if c then inl msg else inr tt.

Notation "c ;; k" := (bind c (fun _ => k))
  (at level 61, right associativity).

(** [for (let i = lo; i < lo + n; i++) body(i)], stopping at the first
    throw. *)
Fixpoint for_range (lo n : nat) (body : nat -> exc unit) : exc unit :=
  match n with
  | O => ret tt
  | S n' => body lo ;; for_range (S lo) n' body
  end.

(** Template literal [`${i}`] for an index. *)
Definition show (n : nat) : string := NilZero.string_of_uint (Nat.to_uint n).

(** ** Arrays *)

(** [xs[i]] for an index inside the array. The function reads an array only
    after its length has been checked or established, so the value given
    here to an index outside the array is never used. *)
Definition get {A : Type} (d : A) (xs : list A) (i : nat) : A := nth i xs d.

(** [xs[i] = v] for [i <= xs.length]: an element is replaced, and writing at
    index [xs.length] extends the array by one. *)
Definition array_set {A : Type} (xs : list A) (i : nat) (v : A) : list A :=
  firstn i xs ++ v :: skipn (S i) xs.

(** [xs.map((x, i) => f x i)]. *)
Fixpoint mapi_from {A B : Type} (i : nat) (f : A -> nat -> B) (xs : list A)
  : list B :=
  match xs with
  | [] => []
  | x :: xs' => f x i :: mapi_from (S i) f xs'
  end.

Definition mapi {A B : Type} (f : A -> nat -> B) (xs : list A) : list B :=
  mapi_from 0 f xs.

(** [for (let i = lo; i < lo + n; i++) s = body(i, s)]. *)
Fixpoint for_fold {A : Type} (lo n : nat) (body : nat -> A -> A) (s : A) : A :=
  match n with
  | O => s
  | S n' => for_fold (S lo) n' body (body lo s)
  end.

(** [a || b] on strings: the empty string is falsy. *)
Definition or_else (a b : string) : string :=
  if String.eqb a EmptyString then b else a.

(** ** The data model and the function *)

Section Calculations.

Context {num : Type} {N : JsNumber num}.
Local Open Scope num_scope.

Record Link : Type := {
  length : num;
  radius : num
}.

Record Motor : Type := {
  mass : num;
  bodyLength : num;
  pivotPosition : num;
  rpm : num;
  gearRatio : num;
  safetyFactor : num
}.

Record InputData : Type := {
  m_payload : num;
  density : num;
  links : list Link;
  motors : list Motor
}.

Record MotorResult : Type := {
  T_total : num;
  T_sf : num;
  T_before : num;
  T_before_sf : num;
  P : num;
  P_sf : num
}.

(** [MotorResult[] | { error: string }]. *)
Inductive Outcome : Type :=
  | Results (motorResults : list MotorResult)
  | ErrorObject (error : string).

Local Notation "xs .[ i ]" := (get lit_0 xs i)
  (at level 1, left associativity, format "xs .[ i ]").

(** [try { ... } catch (error) { return { error: error.message || ... } }]. *)
Definition try_catch (body : exc (list MotorResult)) : Outcome :=
  match body with
  | inr motorResults => Results motorResults
  | inl message =>
      ErrorObject (or_else message "An error occurred during calculations"%string)
  end.

Definition performCalculations (data : InputData) : Outcome :=
  try_catch (
    let g := lit_9_80665 in
    let pi := lit_3_141592653589793 in

    let m_payload := m_payload data in
    let density := density data in
    let links := links data in
    let motors := motors data in

    throw_if (m_payload <? lit_0) "Payload mass cannot be negative" ;;
    throw_if (density <? lit_0) "Density must be positive" ;;
    throw_if (negb (List.length links =? 6)%nat) "Exactly 6 links are required" ;;
    throw_if (negb (List.length motors =? 6)%nat) "Exactly 6 motors are required" ;;

    let L := map (fun link => length link) links in
    let r := map (fun link => radius link) links in
    let m_motor := map (fun motor => mass motor) motors in
    let a := map (fun motor => bodyLength motor) motors in
    let M := map (fun motor => pivotPosition motor) motors in
    let rpm := map (fun motor => rpm motor) motors in
    let R := map (fun motor => gearRatio motor) motors in
    let SF := map (fun motor => safetyFactor motor) motors in

    for_range 0 6 (fun i =>
      throw_if (L.[i] <=? lit_0) ("Link " ++ show (i + 1) ++ " length must be positive") ;;
      throw_if (r.[i] <=? lit_0) ("Link " ++ show (i + 1) ++ " radius must be positive") ;;
      throw_if (m_motor.[i] <? lit_0) ("Motor " ++ show (i + 1) ++ " mass cannot be negative") ;;
      throw_if (a.[i] <? lit_0) ("Motor " ++ show (i + 1) ++ " body length cannot be negative") ;;
      throw_if (M.[i] <? lit_0) ("Motor " ++ show (i + 1) ++ " pivot position cannot be negative") ;;
      throw_if (rpm.[i] <? lit_0) ("Motor " ++ show (i + 1) ++ " RPM cannot be negative") ;;
      throw_if (R.[i] <? lit_0) ("Motor " ++ show (i + 1) ++ " gear ratio cannot be negative") ;;
      throw_if (SF.[i] <? lit_1) ("Motor " ++ show (i + 1) ++ " safety factor must be at least 1")) ;;

    let S := array_set [] 0 L.[0] in
    let S := for_fold 1 5 (fun i S => array_set S i (S.[i - 1] + L.[i])) S in

    let W_L := mapi (fun len i => g * density * pi * sqr r.[i] * len) L in
    let W_M := map (fun m => g * m) m_motor in
    let W_P := g * m_payload in

    let motorResults := [] in

    (* Motor 6 *)
    let T6_payload := W_P * (S.[5] - M.[5]) in
    let T6_L6 := W_L.[5] * (S.[5] - M.[5] - L.[5] / lit_2) in
    let T6_total := T6_payload + T6_L6 in
    let T6_sf := SF.[5] * T6_total in
    let T6_before := if R.[5] !== lit_0 then T6_total / R.[5] else lit_0 in
    let T6_before_sf := SF.[5] * T6_before in
    let P6 := if rpm.[5] !== lit_0 then T6_before * rpm.[5] * lit_1000 / lit_9550 else lit_0 in
    let P6_sf := SF.[5] * P6 in
    let motorResults := motorResults ++
      [{| T_total := T6_total; T_sf := T6_sf; T_before := T6_before;
          T_before_sf := T6_before_sf; P := P6; P_sf := P6_sf |}] in

    (* Motor 5 *)
    let T5_payload := W_P * (S.[5] - M.[4]) in
    let T5_L6 := W_L.[5] * (S.[5] - M.[4] - L.[5] / lit_2) in
    let T5_M6 := W_M.[5] * ((M.[5] + a.[5] / lit_2) - M.[4]) in
    let T5_L5 := W_L.[4] * (S.[4] - M.[4] - L.[4] / lit_2) in
    let T5_total := T5_payload + T5_L6 + T5_M6 + T5_L5 in
    let T5_sf := SF.[4] * T5_total in
    let T5_before := if R.[4] !== lit_0 then T5_total / R.[4] else lit_0 in
    let T5_before_sf := SF.[4] * T5_before in
    let P5 := if rpm.[4] !== lit_0 then T5_before * rpm.[4] * lit_1000 / lit_9550 else lit_0 in
    let P5_sf := SF.[4] * P5 in
    let motorResults := motorResults ++
      [{| T_total := T5_total; T_sf := T5_sf; T_before := T5_before;
          T_before_sf := T5_before_sf; P := P5; P_sf := P5_sf |}] in

    (* Motor 4 *)
    let T4_payload := W_P * (S.[5] - M.[3]) in
    let T4_L6 := W_L.[5] * (S.[5] - M.[3] - L.[5] / lit_2) in
    let T4_L5 := W_L.[4] * (S.[4] - M.[3] - L.[4] / lit_2) in
    let T4_M6 := W_M.[5] * ((M.[5] + a.[5] / lit_2) - M.[3]) in
    let T4_M5 := W_M.[4] * ((M.[4] + a.[4] / lit_2) - M.[3]) in
    let T4_L4 := W_L.[3] * (S.[3] - M.[3] - L.[3] / lit_2) in
    let T4_total := T4_payload + T4_L6 + T4_L5 + T4_M6 + T4_M5 + T4_L4 in
    let T4_sf := SF.[3] * T4_total in
    let T4_before := if R.[3] !== lit_0 then T4_total / R.[3] else lit_0 in
    let T4_before_sf := SF.[3] * T4_before in
    let P4 := if rpm.[3] !== lit_0 then T4_before * rpm.[3] * lit_1000 / lit_9550 else lit_0 in
    let P4_sf := SF.[3] * P4 in
    let motorResults := motorResults ++
      [{| T_total := T4_total; T_sf := T4_sf; T_before := T4_before;
          T_before_sf := T4_before_sf; P := P4; P_sf := P4_sf |}] in

    (* Motor 3 *)
    let T3_payload := W_P * (S.[5] - M.[2]) in
    let T3_L6 := W_L.[5] * (S.[5] - M.[2] - L.[5] / lit_2) in
    let T3_L5 := W_L.[4] * (S.[4] - M.[2] - L.[4] / lit_2) in
    let T3_L4 := W_L.[3] * (S.[3] - M.[2] - L.[3] / lit_2) in
    let T3_M6 := W_M.[5] * ((M.[5] + a.[5] / lit_2) - M.[2]) in
    let T3_M5 := W_M.[4] * ((M.[4] + a.[4] / lit_2) - M.[2]) in
    let T3_M4 := W_M.[3] * ((M.[3] + a.[3] / lit_2) - M.[2]) in
    let T3_L3 := W_L.[2] * (S.[2] - M.[2] - L.[2] / lit_2) in
    let T3_total := T3_payload + T3_L6 + T3_L5 + T3_L4 + T3_M6 + T3_M5 + T3_M4 + T3_L3 in
    let T3_sf := SF.[2] * T3_total in
    let T3_before := if R.[2] !== lit_0 then T3_total / R.[2] else lit_0 in
    let T3_before_sf := SF.[2] * T3_before in
    let P3 := if rpm.[2] !== lit_0 then T3_before * rpm.[2] * lit_1000 / lit_9550 else lit_0 in
    let P3_sf := SF.[2] * P3 in
    let motorResults := motorResults ++
      [{| T_total := T3_total; T_sf := T3_sf; T_before := T3_before;
          T_before_sf := T3_before_sf; P := P3; P_sf := P3_sf |}] in

    (* Motor 2 *)
    let T2_payload := W_P * (S.[5] - M.[1]) in
    let T2_L6 := W_L.[5] * (S.[5] - M.[1] - L.[5] / lit_2) in
    let T2_L5 := W_L.[4] * (S.[4] - M.[1] - L.[4] / lit_2) in
    let T2_L4 := W_L.[3] * (S.[3] - M.[1] - L.[3] / lit_2) in
    let T2_L3 := W_L.[2] * (S.[2] - M.[1] - L.[2] / lit_2) in
    let T2_L2 := W_L.[1] * (S.[1] - M.[1] - L.[1] / lit_2) in
    let T2_M6 := W_M.[5] * ((M.[5] + a.[5] / lit_2) - M.[1]) in
    let T2_M5 := W_M.[4] * ((M.[4] + a.[4] / lit_2) - M.[1]) in
    let T2_M4 := W_M.[3] * ((M.[3] + a.[3] / lit_2) - M.[1]) in
    let T2_M3 := W_M.[2] * ((M.[2] + a.[2] / lit_2) - M.[1]) in
    let T2_total := T2_payload + T2_L6 + T2_L5 + T2_L4 + T2_L3 + T2_L2 + T2_M6 + T2_M5 + T2_M4 + T2_M3 in
    let T2_sf := SF.[1] * T2_total in
    let T2_before := if R.[1] !== lit_0 then T2_total / R.[1] else lit_0 in
    let T2_before_sf := SF.[1] * T2_before in
    let P2 := if rpm.[1] !== lit_0 then T2_before * rpm.[1] * lit_1000 / lit_9550 else lit_0 in
    let P2_sf := SF.[1] * P2 in
    let motorResults := motorResults ++
      [{| T_total := T2_total; T_sf := T2_sf; T_before := T2_before;
          T_before_sf := T2_before_sf; P := P2; P_sf := P2_sf |}] in

    (* Motor 1 *)
    let T1_payload := W_P * (S.[5] - M.[0]) in
    let T1_L6 := W_L.[5] * (S.[5] - M.[0] - L.[5] / lit_2) in
    let T1_L5 := W_L.[4] * (S.[4] - M.[0] - L.[4] / lit_2) in
    let T1_L4 := W_L.[3] * (S.[3] - M.[0] - L.[3] / lit_2) in
    let T1_L3 := W_L.[2] * (S.[2] - M.[0] - L.[2] / lit_2) in
    let T1_L2 := W_L.[1] * (S.[1] - M.[0] - L.[1] / lit_2) in
    let T1_L1 := W_L.[0] * (S.[0] - M.[0] - L.[0] / lit_2) in
    let T1_M6 := W_M.[5] * ((M.[5] + a.[5] / lit_2) - M.[0]) in
    let T1_M5 := W_M.[4] * ((M.[4] + a.[4] / lit_2) - M.[0]) in
    let T1_M4 := W_M.[3] * ((M.[3] + a.[3] / lit_2) - M.[0]) in
    let T1_M3 := W_M.[2] * ((M.[2] + a.[2] / lit_2) - M.[0]) in
    let T1_M2 := W_M.[1] * ((M.[1] + a.[1] / lit_2) - M.[0]) in
    let T1_total := T1_payload + T1_L6 + T1_L5 + T1_L4 + T1_L3 + T1_L2 + T1_L1 + T1_M6 + T1_M5 + T1_M4 + T1_M3 + T1_M2 in
    let T1_sf := SF.[0] * T1_total in
    let T1_before := if R.[0] !== lit_0 then T1_total / R.[0] else lit_0 in
    let T1_before_sf := SF.[0] * T1_before in
    let P1 := if rpm.[0] !== lit_0 then T1_before * rpm.[0] * lit_1000 / lit_9550 else lit_0 in
    let P1_sf := SF.[0] * P1 in
    let motorResults := motorResults ++
      [{| T_total := T1_total; T_sf := T1_sf; T_before := T1_before;
          T_before_sf := T1_before_sf; P := P1; P_sf := P1_sf |}] in

    ret motorResults).

End Calculations.

Arguments Link num : clear implicits.
Arguments Motor num : clear implicits.
Arguments InputData num : clear implicits.
Arguments MotorResult num : clear implicits.
Arguments Outcome num : clear implicits.

(** The form's sample values (handleFillDummyValues), as binary64 numbers. *)
Definition dummy_float : InputData float := {|
  m_payload := 5%float;
  density := 2700%float;
  links := [ {| length := 0.5; radius := 0.02 |};
             {| length := 0.4; radius := 0.02 |};
             {| length := 0.3; radius := 0.015 |};
             {| length := 0.3; radius := 0.015 |};
             {| length := 0.2; radius := 0.01 |};
             {| length := 0.1; radius := 0.01 |} ]%float;
  motors := [ {| mass := 2; bodyLength := 0.1; pivotPosition := 0; rpm := 100; gearRatio := 10; safetyFactor := 1.5 |};
              {| mass := 1.5; bodyLength := 0.08; pivotPosition := 0.5; rpm := 120; gearRatio := 8; safetyFactor := 1.5 |};
              {| mass := 1.2; bodyLength := 0.07; pivotPosition := 0.9; rpm := 150; gearRatio := 6; safetyFactor := 1.5 |};
              {| mass := 1; bodyLength := 0.06; pivotPosition := 1.2; rpm := 180; gearRatio := 5; safetyFactor := 1.5 |};
              {| mass := 0.8; bodyLength := 0.05; pivotPosition := 1.5; rpm := 200; gearRatio := 4; safetyFactor := 1.5 |};
              {| mass := 0.5; bodyLength := 0.04; pivotPosition := 1.7; rpm := 250; gearRatio := 3; safetyFactor := 1.5 |} ]%float
|}.

(** ** The specification's formulation

    The quantities of the specification, written as it words them: one
    definition per quantity, indexed by the joint or link number, instead
    of the six expanded blocks of the function. *)

Section Specification.

Context {num : Type} {N : JsNumber num}.
Local Open Scope num_scope.

Definition no_link : Link num := {| length := lit_0; radius := lit_0 |}.

Definition no_motor : Motor num :=
  {| mass := lit_0; bodyLength := lit_0; pivotPosition := lit_0;
     rpm := lit_0; gearRatio := lit_0; safetyFactor := lit_0 |}.

(** Link [k] and motor [k] of an input, [k] counted from 0 at the base. *)
Definition link (d : InputData num) (k : nat) : Link num :=
  nth k (links d) no_link.

Definition motor (d : InputData num) (k : nat) : Motor num :=
  nth k (motors d) no_motor.

Definition pivot (d : InputData num) (k : nat) : num :=
  pivotPosition (motor d k).

(** [S[0] = length[0]], [S[i] = S[i-1] + length[i]]. *)
Fixpoint spec_S (d : InputData num) (i : nat) : num :=
  match i with
  | O => length (link d 0)
  | S i' => spec_S d i' + length (link d i)
  end.

(** [W_link[i] = g * density * pi * radius[i]^2 * length[i]]. *)
Definition spec_W_link (d : InputData num) (i : nat) : num :=
  lit_9_80665 * density d * lit_3_141592653589793
    * sqr (radius (link d i)) * length (link d i).

(** [W_motor[i] = g * mass[i]]. *)
Definition spec_W_motor (d : InputData num) (i : nat) : num :=
  lit_9_80665 * mass (motor d i).

(** [W_payload = g * payloadMass]. *)
Definition spec_W_payload (d : InputData num) : num :=
  lit_9_80665 * m_payload d.

(** The contributions to the torque about a pivot. *)
Inductive Term : Type :=
  | PayloadTerm
  | LinkTerm (k : nat)
  | MotorTerm (k : nat).

Definition spec_term (d : InputData num) (j : nat) (t : Term) : num :=
  match t with
  | PayloadTerm => spec_W_payload d * (spec_S d 5 - pivot d j)
  | LinkTerm k =>
      spec_W_link d k * (spec_S d k - pivot d j - length (link d k) / lit_2)
  | MotorTerm k =>
      spec_W_motor d k
        * (pivot d k + bodyLength (motor d k) / lit_2 - pivot d j)
  end.

(** The contributions to joint [j]: the payload, every link [k >= j] and
    every motor [k > j]. *)
Definition spec_terms (j : nat) : list Term :=
  PayloadTerm :: map LinkTerm (seq j (6 - j))
              ++ map MotorTerm (seq (S j) (5 - j)).

(** [x1 + x2 + ... + xn], added from the left as JavaScript does. *)
Definition sum_left (xs : list num) : num :=
  match xs with
  | [] => lit_0
  | x :: xs' => fold_left add xs' x
  end.

(** The order in which the block of joint [j] adds its contributions
    ([T6_total], [T5_total], ..., [T1_total] in the source). *)
Definition summation_order (j : nat) : list Term :=
  match j with
  | 5 => [PayloadTerm; LinkTerm 5]
  | 4 => [PayloadTerm; LinkTerm 5; MotorTerm 5; LinkTerm 4]
  | 3 => [PayloadTerm; LinkTerm 5; LinkTerm 4; MotorTerm 5; MotorTerm 4;
          LinkTerm 3]
  | 2 => [PayloadTerm; LinkTerm 5; LinkTerm 4; LinkTerm 3; MotorTerm 5;
          MotorTerm 4; MotorTerm 3; LinkTerm 2]
  | 1 => [PayloadTerm; LinkTerm 5; LinkTerm 4; LinkTerm 3; LinkTerm 2;
          LinkTerm 1; MotorTerm 5; MotorTerm 4; MotorTerm 3; MotorTerm 2]
  | 0 => [PayloadTerm; LinkTerm 5; LinkTerm 4; LinkTerm 3; LinkTerm 2;
          LinkTerm 1; LinkTerm 0; MotorTerm 5; MotorTerm 4; MotorTerm 3;
          MotorTerm 2; MotorTerm 1]
  | _ => []
  end.

(** Steps 6 to 10 of the algorithm, from the total torque [T] of joint [j]. *)
Definition spec_T_before (d : InputData num) (j : nat) (T : num) : num :=
  if gearRatio (motor d j) !== lit_0 then T / gearRatio (motor d j)
  else lit_0.

Definition spec_power (d : InputData num) (j : nat) (Tb : num) : num :=
  if rpm (motor d j) !== lit_0
  then Tb * rpm (motor d j) * lit_1000 / lit_9550
  else lit_0.

Definition joint_result (d : InputData num) (j : nat) : MotorResult num :=
  let T := sum_left (map (spec_term d j) (summation_order j)) in
  let Tb := spec_T_before d j T in
  let Pw := spec_power d j Tb in
  let sf := safetyFactor (motor d j) in
  {| T_total := T; T_sf := sf * T;
     T_before := Tb; T_before_sf := sf * Tb;
     P := Pw; P_sf := sf * Pw |}.

(** An input passes validation when none of the tests of the function
    fires. *)
Definition link_ok (l : Link num) : Prop :=
  (length l <=? lit_0) = false /\ (radius l <=? lit_0) = false.

Definition motor_ok (m : Motor num) : Prop :=
  (mass m <? lit_0) = false /\ (bodyLength m <? lit_0) = false /\
  (pivotPosition m <? lit_0) = false /\ (rpm m <? lit_0) = false /\
  (gearRatio m <? lit_0) = false /\ (safetyFactor m <? lit_1) = false.

Definition passes_validation (d : InputData num) : Prop :=
  (m_payload d <? lit_0) = false /\ (density d <? lit_0) = false /\
  List.length (links d) = 6%nat /\ List.length (motors d) = 6%nat /\
  Forall link_ok (links d) /\ Forall motor_ok (motors d).

(** The checks of validation, in the order in which the specification
    lists them. *)
Inductive Check : Type :=
  | PayloadMass
  | LinkDensity
  | LinkCount
  | MotorCount
  | LinkLength (i : nat)
  | LinkRadius (i : nat)
  | MotorMass (i : nat)
  | MotorBodyLength (i : nat)
  | MotorPivotPosition (i : nat)
  | MotorRpm (i : nat)
  | MotorGearRatio (i : nat)
  | MotorSafetyFactor (i : nat).

Definition index_checks (i : nat) : list Check :=
  [LinkLength i; LinkRadius i; MotorMass i; MotorBodyLength i;
   MotorPivotPosition i; MotorRpm i; MotorGearRatio i; MotorSafetyFactor i].

Definition validation_order : list Check :=
  [PayloadMass; LinkDensity; LinkCount; MotorCount]
    ++ flat_map index_checks (seq 0 6).

(** The test by which the function rejects an input at a check. *)
Definition violated (d : InputData num) (c : Check) : bool :=
  match c with
  | PayloadMass => m_payload d <? lit_0
  | LinkDensity => density d <? lit_0
  | LinkCount => negb (List.length (links d) =? 6)%nat
  | MotorCount => negb (List.length (motors d) =? 6)%nat
  | LinkLength i => length (link d i) <=? lit_0
  | LinkRadius i => radius (link d i) <=? lit_0
  | MotorMass i => mass (motor d i) <? lit_0
  | MotorBodyLength i => bodyLength (motor d i) <? lit_0
  | MotorPivotPosition i => pivotPosition (motor d i) <? lit_0
  | MotorRpm i => rpm (motor d i) <? lit_0
  | MotorGearRatio i => gearRatio (motor d i) <? lit_0
  | MotorSafetyFactor i => safetyFactor (motor d i) <? lit_1
  end.

(** The constraint of the data model at a check, as the comparison that
    states it: [payloadMass >= 0], [length > 0], [safetyFactor >= 1]. *)
Definition meets (d : InputData num) (c : Check) : bool :=
  match c with
  | PayloadMass => lit_0 <=? m_payload d
  | LinkDensity => lit_0 <=? density d
  | LinkCount => (List.length (links d) =? 6)%nat
  | MotorCount => (List.length (motors d) =? 6)%nat
  | LinkLength i => lit_0 <? length (link d i)
  | LinkRadius i => lit_0 <? radius (link d i)
  | MotorMass i => lit_0 <=? mass (motor d i)
  | MotorBodyLength i => lit_0 <=? bodyLength (motor d i)
  | MotorPivotPosition i => lit_0 <=? pivotPosition (motor d i)
  | MotorRpm i => lit_0 <=? rpm (motor d i)
  | MotorGearRatio i => lit_0 <=? gearRatio (motor d i)
  | MotorSafetyFactor i => lit_1 <=? safetyFactor (motor d i)
  end.

(** The comparisons decide the constraints of an input when each test of
    the function is the negation of the constraint it guards: [x < 0] is
    true exactly when [0 <= x] is false. *)
Definition decisive (d : InputData num) : Prop :=
  forall c, In c validation_order -> violated d c = negb (meets d c).

(** The message with which the function rejects an input at a check; a
    link or motor is named by its index counted from 1. *)
Definition message (c : Check) : string :=
  match c with
  | PayloadMass => "Payload mass cannot be negative"
  | LinkDensity => "Density must be positive"
  | LinkCount => "Exactly 6 links are required"
  | MotorCount => "Exactly 6 motors are required"
  | LinkLength i => "Link " ++ show (i + 1) ++ " length must be positive"
  | LinkRadius i => "Link " ++ show (i + 1) ++ " radius must be positive"
  | MotorMass i => "Motor " ++ show (i + 1) ++ " mass cannot be negative"
  | MotorBodyLength i =>
      "Motor " ++ show (i + 1) ++ " body length cannot be negative"
  | MotorPivotPosition i =>
      "Motor " ++ show (i + 1) ++ " pivot position cannot be negative"
  | MotorRpm i => "Motor " ++ show (i + 1) ++ " RPM cannot be negative"
  | MotorGearRatio i =>
      "Motor " ++ show (i + 1) ++ " gear ratio cannot be negative"
  | MotorSafetyFactor i =>
      "Motor " ++ show (i + 1) ++ " safety factor must be at least 1"
  end%string.

(** The first check, in that order, whose test fires. *)
Definition first_violation (d : InputData num) : option Check :=
  find (violated d) validation_order.

End Specification.

(** ** Derived notions of the specification *)

Section Derived.

Context {num : Type} {N : JsNumber num}.
Local Open Scope num_scope.

(** The sum of a list of contributions. *)
Definition total (xs : list num) : num := fold_right add lit_0 xs.

(** Step 5 of the algorithm: the static torque about [pivot[j]]. *)
Definition spec_torque (d : InputData num) (j : nat) : num :=
  total (map (spec_term d j) (spec_terms j)).

(** The contributions to joint [j] that do not come from a link. *)
Definition payload_and_motor_terms (j : nat) : list Term :=
  PayloadTerm :: map MotorTerm (seq (S j) (5 - j)).

(** Two inputs that differ at most in the payload mass. *)
Definition same_arm (d1 d2 : InputData num) : Prop :=
  density d1 = density d2 /\ links d1 = links d2 /\ motors d1 = motors d2.

End Derived.

(** [sub] occurs in [s]. *)
Definition contains (sub s : string) : bool :=
  match index 0 sub s with
  | Some _ => true
  | None => false
  end.

Definition Check_eqb (c1 c2 : Check) : bool :=
  match c1, c2 with
  | PayloadMass, PayloadMass => true
  | LinkDensity, LinkDensity => true
  | LinkCount, LinkCount => true
  | MotorCount, MotorCount => true
  | LinkLength i, LinkLength k => i =? k
  | LinkRadius i, LinkRadius k => i =? k
  | MotorMass i, MotorMass k => i =? k
  | MotorBodyLength i, MotorBodyLength k => i =? k
  | MotorPivotPosition i, MotorPivotPosition k => i =? k
  | MotorRpm i, MotorRpm k => i =? k
  | MotorGearRatio i, MotorGearRatio k => i =? k
  | MotorSafetyFactor i, MotorSafetyFactor k => i =? k
  | _, _ => false
  end.

(** The constraints of the data model, over the rationals: what each check
    of validation requires of a valid input. *)
Definition satisfied (d : InputData Q) (c : Check) : Prop :=
  match c with
  | PayloadMass => (0 <= m_payload d)%Q
  | LinkDensity => (0 <= density d)%Q
  | LinkCount => List.length (links d) = 6
  | MotorCount => List.length (motors d) = 6
  | LinkLength i => (0 < length (link d i))%Q
  | LinkRadius i => (0 < radius (link d i))%Q
  | MotorMass i => (0 <= mass (motor d i))%Q
  | MotorBodyLength i => (0 <= bodyLength (motor d i))%Q
  | MotorPivotPosition i => (0 <= pivotPosition (motor d i))%Q
  | MotorRpm i => (0 <= rpm (motor d i))%Q
  | MotorGearRatio i => (0 <= gearRatio (motor d i))%Q
  | MotorSafetyFactor i => (1 <= safetyFactor (motor d i))%Q
  end.

(** Two binary64 numbers that are the same up to the sign of a zero. *)
Definition same_number (x y : float) : Prop :=
  x = y \/ (PrimFloat.eqb x 0 = true /\ PrimFloat.eqb y 0 = true).

Definition is_link_term (t : Term) : bool :=
  match t with
  | LinkTerm _ => true
  | _ => false
  end.

(** The contributions of a list without those of the links, in the order
    of the list. *)
Definition without_links (ts : list Term) : list Term :=
  filter (fun t => negb (is_link_term t)) ts.

(** A binary64 input none of whose fields is NaN. *)
Definition nan_free (d : InputData float) : Prop :=
  is_nan (m_payload d) = false /\ is_nan (density d) = false /\
  Forall (fun l => is_nan (length l) = false /\ is_nan (radius l) = false)
         (links d) /\
  Forall (fun m => is_nan (mass m) = false /\ is_nan (bodyLength m) = false /\
                   is_nan (pivotPosition m) = false /\ is_nan (rpm m) = false /\
                   is_nan (gearRatio m) = false /\
                   is_nan (safetyFactor m) = false)
         (motors d).

(** ** Sample inputs *)

(** An input with another payload mass. *)
Definition with_payload {num : Type} (d : InputData num) (p : num)
  : InputData num :=
  {| m_payload := p; density := density d;
     links := links d; motors := motors d |}.

(** An input with its pivots placed elsewhere, motor by motor. *)
Definition with_pivots {num : Type} (d : InputData num) (ps : list num)
  : InputData num :=
  {| m_payload := m_payload d; density := density d; links := links d;
     motors :=
       map (fun mp : Motor num * num =>
              {| mass := mass (fst mp); bodyLength := bodyLength (fst mp);
                 pivotPosition := snd mp; rpm := rpm (fst mp);
                 gearRatio := gearRatio (fst mp);
                 safetyFactor := safetyFactor (fst mp) |})
           (combine (motors d) ps) |}.

(** An input with the safety factor of motor [i] replaced. *)
Definition with_safetyFactor {num : Type} (d : InputData num) (i : nat)
  (sf : num) : InputData num :=
  {| m_payload := m_payload d; density := density d; links := links d;
     motors :=
       mapi (fun (m : Motor num) (k : nat) =>
               if k =? i
               then {| mass := mass m; bodyLength := bodyLength m;
                       pivotPosition := pivotPosition m; rpm := rpm m;
                       gearRatio := gearRatio m; safetyFactor := sf |}
               else m)
            (motors d) |}.

(** An input without its last link. *)
Definition without_last_link {num : Type} (d : InputData num)
  : InputData num :=
  {| m_payload := m_payload d; density := density d;
     links := removelast (links d); motors := motors d |}.

(** The form's sample values, as rationals. *)
Definition dummy_Q : InputData Q := {|
  m_payload := 5%Q;
  density := 2700%Q;
  links := [ {| length := 0.5; radius := 0.02 |};
             {| length := 0.4; radius := 0.02 |};
             {| length := 0.3; radius := 0.015 |};
             {| length := 0.3; radius := 0.015 |};
             {| length := 0.2; radius := 0.01 |};
             {| length := 0.1; radius := 0.01 |} ]%Q;
  motors := [ {| mass := 2; bodyLength := 0.1; pivotPosition := 0; rpm := 100; gearRatio := 10; safetyFactor := 1.5 |};
              {| mass := 1.5; bodyLength := 0.08; pivotPosition := 0.5; rpm := 120; gearRatio := 8; safetyFactor := 1.5 |};
              {| mass := 1.2; bodyLength := 0.07; pivotPosition := 0.9; rpm := 150; gearRatio := 6; safetyFactor := 1.5 |};
              {| mass := 1; bodyLength := 0.06; pivotPosition := 1.2; rpm := 180; gearRatio := 5; safetyFactor := 1.5 |};
              {| mass := 0.8; bodyLength := 0.05; pivotPosition := 1.5; rpm := 200; gearRatio := 4; safetyFactor := 1.5 |};
              {| mass := 0.5; bodyLength := 0.04; pivotPosition := 1.7; rpm := 250; gearRatio := 3; safetyFactor := 1.5 |} ]%Q
|}.

(** An arm of six links of length 1 with its six motors at 0, 1, 2, 3, 4
    and 6, so that motor 6 sits at the tip [S[5] = 6]; massless motors and
    links, so that only the payload loads the joints. *)
Definition tip_motor_float (payload : float) : InputData float := {|
  m_payload := payload;
  density := 0%float;
  links := repeat {| length := 1%float; radius := 1%float |} 6;
  motors :=
    map (fun pv : float =>
           {| mass := 0; bodyLength := 0; pivotPosition := pv; rpm := 0;
              gearRatio := 0; safetyFactor := 1 |}%float)
        [0; 1; 2; 3; 4; 6]%float
|}.

Definition tip_motor_Q (payload : Q) : InputData Q := {|
  m_payload := payload;
  density := 0%Q;
  links := repeat {| length := 1%Q; radius := 1%Q |} 6;
  motors :=
    map (fun pv : Q =>
           {| mass := 0; bodyLength := 0; pivotPosition := pv; rpm := 0;
              gearRatio := 0; safetyFactor := 1 |}%Q)
        [0; 1; 2; 3; 4; 6]%Q
|}.

(** The same arm with links of radius 1e200, whose square is beyond the
    largest binary64 number. *)
Definition wide_links_float : InputData float := {|
  m_payload := 1%float;
  density := 0%float;
  links := repeat {| length := 1%float; radius := 1e200%float |} 6;
  motors := motors (tip_motor_float 1)
|}.

(** The sample arm with motor 6 placed at 2.0 m, beyond the tip at
    [S[5] = 1.8] m. *)
Definition overhung_float : InputData float :=
  with_pivots dummy_float [0; 0.5; 0.9; 1.2; 1.5; 2]%float.

Definition overhung_Q : InputData Q :=
  with_pivots dummy_Q [0; 0.5; 0.9; 1.2; 1.5; 2]%Q.

(** ** Further notions of the function *)

Section Frame.

Context {num : Type} {N : JsNumber num}.
Local Open Scope num_scope.

(** The weight behind a contribution. *)
Definition weight (d : InputData num) (t : Term) : num :=
  match t with
  | PayloadTerm => spec_W_payload d
  | LinkTerm k => spec_W_link d k
  | MotorTerm k => spec_W_motor d k
  end.

(** Two inputs that agree on everything the block of joint [j] reads: the
    payload mass, the density, the lengths of all the links, the radii of
    the links [k >= j], the mass, body length and pivot of the motors
    [k > j], and the pivot, rpm, gear ratio and safety factor of motor
    [j]. *)
Definition same_for_joint (j : nat) (d1 d2 : InputData num) : Prop :=
  m_payload d1 = m_payload d2 /\ density d1 = density d2 /\
  (forall k, length (link d1 k) = length (link d2 k)) /\
  (forall k, j <= k -> radius (link d1 k) = radius (link d2 k)) /\
  (forall k, j < k ->
     mass (motor d1 k) = mass (motor d2 k) /\
     bodyLength (motor d1 k) = bodyLength (motor d2 k) /\
     pivotPosition (motor d1 k) = pivotPosition (motor d2 k)) /\
  pivotPosition (motor d1 j) = pivotPosition (motor d2 j) /\
  rpm (motor d1 j) = rpm (motor d2 j) /\
  gearRatio (motor d1 j) = gearRatio (motor d2 j) /\
  safetyFactor (motor d1 j) = safetyFactor (motor d2 j).

End Frame.

(** A contribution of a link or motor that the arm has. *)
Definition term_in_range (t : Term) : Prop :=
  match t with
  | PayloadTerm => True
  | LinkTerm k | MotorTerm k => k < 6
  end.

(** The message of the [catch] clause for an error without one. *)
Definition fallback_message : string :=
  "An error occurred during calculations".

(** An input with the mass and body length of motor [i] replaced. *)
Definition with_motor_body {num : Type} (d : InputData num) (i : nat)
  (m a : num) : InputData num :=
  {| m_payload := m_payload d; density := density d; links := links d;
     motors :=
       mapi (fun (mo : Motor num) (k : nat) =>
               if k =? i
               then {| mass := m; bodyLength := a;
                       pivotPosition := pivotPosition mo; rpm := rpm mo;
                       gearRatio := gearRatio mo;
                       safetyFactor := safetyFactor mo |}
               else mo)
            (motors d) |}.

(** An input with the payload mass, the density of the links and the mass
    of every motor multiplied by [c]. *)
Definition scale_masses {num : Type} {N : JsNumber num} (c : num)
  (d : InputData num) : InputData num :=
  {| m_payload := (c * m_payload d)%num; density := (c * density d)%num;
     links := links d;
     motors :=
       map (fun mo : Motor num =>
              {| mass := (c * mass mo)%num; bodyLength := bodyLength mo;
                 pivotPosition := pivotPosition mo; rpm := rpm mo;
                 gearRatio := gearRatio mo;
                 safetyFactor := safetyFactor mo |})
           (motors d) |}.

(** ** The form (components/CalculatorForm.tsx) *)

(** A number in a condition: NaN, [0] and [-0] are falsy. *)
Definition truthy (x : float) : bool :=
  negb (is_nan x || PrimFloat.eqb x 0).

(** [x || y] on numbers. *)
Definition or_number (x y : float) : float := if truthy x then x else y.

Section Form.

(** [parseFloat] and the validator that [z.number().min(m, _)] builds are
    library functions; the form is read over any two such functions.
    [z_number_min m x] says that the validator accepts [x]. *)
Variable parseFloat : string -> float.
Variable z_number_min : float -> float -> bool.

(** The handler of every input of the form:
    [e.target.value === "" ? 0 : parseFloat(e.target.value) || 0]. *)
Definition onChange (value : string) : float :=
  if String.eqb value EmptyString then 0%float
  else or_number (parseFloat value) 0%float.

(** [formSchema]: an array schema accepts an array of the given length
    whose elements it accepts. *)
Definition linkSchema (l : Link float) : bool :=
  z_number_min 0 (length l) && z_number_min 0 (radius l).

Definition motorSchema (m : Motor float) : bool :=
  z_number_min 0 (mass m) && z_number_min 0 (bodyLength m)
  && z_number_min 0 (pivotPosition m) && z_number_min 0 (rpm m)
  && z_number_min 0 (gearRatio m) && z_number_min 1 (safetyFactor m).

Definition formSchema (d : InputData float) : bool :=
  z_number_min 0 (m_payload d) && z_number_min 0 (density d)
  && (forallb linkSchema (links d) && (List.length (links d) =? 6))
  && (forallb motorSchema (motors d) && (List.length (motors d) =? 6)).

(** An input every number of which comes out of the handler. *)
Definition typed_in (d : InputData float) : Prop :=
  (exists v, m_payload d = onChange v) /\
  (exists v, density d = onChange v) /\
  Forall (fun l => (exists v, length l = onChange v) /\
                   (exists v, radius l = onChange v)) (links d) /\
  Forall (fun m => (exists v, mass m = onChange v) /\
                   (exists v, bodyLength m = onChange v) /\
                   (exists v, pivotPosition m = onChange v) /\
                   (exists v, rpm m = onChange v) /\
                   (exists v, gearRatio m = onChange v) /\
                   (exists v, safetyFactor m = onChange v)) (motors d).

End Form.

(** A validator of numbers as Zod 3 has it: a number other than NaN that is
    not below the minimum. *)
Definition zod3_number_min (m x : float) : bool :=
  negb (is_nan x) && negb (PrimFloat.ltb x m).

(** A reader of numbers for the examples: it reads the numeral 1 and gives
    NaN on any other text. *)
Definition sample_parseFloat (s : string) : float :=
  if String.eqb s "1" then 1%float else nan.

(** [defaultValues], which are also the values of [handleResetValues]. *)
Definition defaultValues : InputData float := {|
  m_payload := 0%float;
  density := 0%float;
  links := repeat {| length := 0%float; radius := 0%float |} 6;
  motors := repeat {| mass := 0; bodyLength := 0; pivotPosition := 0;
                      rpm := 0; gearRatio := 0; safetyFactor := 1 |}%float 6
|}.

(** ** The page (app/page.tsx), the table (components/ResultsTable.tsx) and
    the export *)

Section Page.

Context {num : Type} {N : JsNumber num}.

(** [x.toFixed(2)] is a library function; the page is read over any such
    function. *)
Variable toFixed2 : num -> string.

(** [null | MotorResult[] | { error: string }]. *)
Definition ResultsState : Type := option (Outcome num).

(** [handleCalculate]: the state after a calculation. *)
Definition handleCalculate (data : InputData num) : ResultsState :=
  Some (performCalculations data).

(** A row of the table: the number in the column Motor and the six
    formatted figures. *)
Record Row : Type := {
  motor_label : nat;
  figures : list string
}.

(** The six figures of a result, formatted, in the order of the columns. *)
Definition formatted (result : MotorResult num) : list string :=
  [toFixed2 (T_total result); toFixed2 (T_sf result);
   toFixed2 (T_before result); toFixed2 (T_before_sf result);
   toFixed2 (P result); toFixed2 (P_sf result)].

(** [ResultsTable]: [results.map((result, index) => ...)] with [index + 1]
    in the first cell. *)
Definition ResultsTable (results : list (MotorResult num)) : list Row :=
  mapi (fun result index =>
          {| motor_label := index + 1; figures := formatted result |})
       results.

(** What the page shows below the form. *)
Inductive View : Type :=
  | Nothing
  | ErrorText (error : string)
  | Table (rows : list Row).

(** [results && "error" in results ? <div>{results.error}</div>
     : results && <ResultsTable results={results} />]:
    [null] is falsy, an array is truthy, also when empty, and has no
    property [error]. *)
Definition Home (results : ResultsState) : View :=
  match results with
  | None => Nothing
  | Some (ErrorObject error) => ErrorText error
  | Some (Results motorResults) => Table (ResultsTable motorResults)
  end.

(** A cell of the sheet. *)
Inductive Cell : Type :=
  | NumberCell (n : nat)
  | TextCell (s : string).

Definition sheet_header : list Cell :=
  map TextCell
      ["Motor"; "Torque Total (Nm)"; "Torque SF (Nm)"; "Torque Before (Nm)";
       "Torque Before SF (Nm)"; "Power (W)"; "Power SF (W)"]%string.

(** [resultData] of [handleExportToExcel]: the header, and under it a row
    per result when [results && !("error" in results)]. *)
Definition resultData (results : ResultsState) : list (list Cell) :=
  match results with
  | Some (Results motorResults) =>
      sheet_header ::
      mapi (fun result i =>
              [NumberCell (i + 1);
               TextCell (toFixed2 (T_total result));
               TextCell (toFixed2 (T_sf result));
               TextCell (toFixed2 (T_before result));
               TextCell (toFixed2 (T_before_sf result));
               TextCell (toFixed2 (P result));
               TextCell (toFixed2 (P_sf result))])
           motorResults
  | _ => [sheet_header]
  end.

(** A row of the table as a row of cells. *)
Definition cells_of_row (r : Row) : list Cell :=
  NumberCell (motor_label r) :: map TextCell (figures r).

Definition rows_of_view (v : View) : list Row :=
  match v with
  | Table rows => rows
  | _ => []
  end.

End Page.

(** ** binary64 numbers as integers

    What is needed to show that rounding keeps the order of numbers. A
    finite binary64 number is a multiple of [2^-1074]; [SF2Z] is its value
    in that unit, with the infinities placed at [2^1024], beyond every
    finite number. *)

Section RoundingModel.

Local Open Scope Z_scope.

(** [n] steps of the shift to the right that rounding uses. *)
Definition shr_n (n : nat) (mrs : shr_record) : shr_record :=
  Nat.iter n shr_1 mrs.

(** Where the shifted number lies: at the mantissa, below, at or above the
    midpoint to the next mantissa. *)
Definition shr_code (mrs : shr_record) : Z :=
  4 * shr_m mrs + (if shr_r mrs then 2 else 0) + (if shr_s mrs then 1 else 0).

(** The mantissa chosen by rounding to nearest, ties to even. *)
Definition shr_round (mrs : shr_record) : Z :=
  round_nearest_even (shr_m mrs) (loc_of_shr_record mrs).

(** A mantissa that has lost nothing to the shift. *)
Definition shr_exact (m : Z) : shr_record :=
  {| shr_m := m; shr_r := false; shr_s := false |}.

(** Where the infinities are placed: [2^1024] in units of [2^-1074]. *)
Definition inf_Z : Z := 2 ^ (emax - emin).

(** The value of a number in units of [2^-1074]; NaN has none and is given
    0. *)
Definition SF2Z (x : spec_float) : Z :=
  match x with
  | S754_zero _ => 0
  | S754_nan => 0
  | S754_infinity s => cond_Zopp s inf_Z
  | S754_finite s m e => cond_Zopp s (Zpos m * 2 ^ (e - emin))
  end.

(** The value, in units of [2^-1074], to which the positive number
    [X * 2^e0] rounds when no overflow occurs. *)
Definition round_Z (e0 X : Z) : Z :=
  let e' := fexp prec emax (Zdigits2 X + e0) in
  shr_round (shr_n (Z.to_nat (e' - e0)) (shr_exact X)) * 2 ^ (e' - emin).

(** Rounding of [X * 2^e0] of either sign, with overflow to an infinity. *)
Definition clamp_round (e0 X : Z) : Z :=
  match X with
  | 0 => 0
  | Zpos _ => Z.min (round_Z e0 X) inf_Z
  | Zneg p => - Z.min (round_Z e0 (Zpos p)) inf_Z
  end.

(** A number other than NaN and the infinities. *)
Definition finite_or_zero (x : spec_float) : bool :=
  match x with
  | S754_zero _ | S754_finite _ _ _ => true
  | _ => false
  end.

End RoundingModel.

(** An arm on which a heavy payload overflows: motor 1 sits at 1 m, motor 2
    at 0 m and has a mass of 1e308 kg, so that about joint 1 its weight,
    which overflows, has a negative lever arm. *)
Definition overflowing_float (payload : float) : InputData float :=
  with_payload
    (with_motor_body
       (with_pivots dummy_float [1; 0; 0.9; 1.2; 1.5; 1.7]%float)
       1 1e308%float 0%float)
    payload.

(** * Properties *)

(** ** The function, check by check *)

Section Characterisation.

Context {num : Type} {N : JsNumber num}.
Local Open Scope num_scope.

Lemma length_6 {A : Type} (xs : list A) :
  List.length xs = 6 ->
  exists x0 x1 x2 x3 x4 x5, xs = [x0; x1; x2; x3; x4; x5].
Proof.
  intros H.
  do 6 (destruct xs as [|? xs]; [discriminate H|]).
  destruct xs; [|discriminate H].
  repeat eexists.
Qed.

(** The function begins with the four checks on the payload, the density
    and the two lengths, whatever follows them. *)
Lemma performCalculations_prefix (d : InputData num) :
  exists K,
    performCalculations d =
    try_catch (
      throw_if (m_payload d <? lit_0) (message PayloadMass) ;;
      throw_if (density d <? lit_0) (message LinkDensity) ;;
      throw_if (negb (List.length (links d) =? 6)%nat) (message LinkCount) ;;
      throw_if (negb (List.length (motors d) =? 6)%nat) (message MotorCount) ;;
      K).
Proof. eexists. reflexivity. Qed.

Ltac number_cbv :=
  cbv - [add sub mul div sqr ltb leb neqb lit_0 lit_1 lit_2 lit_1000 lit_9550
         lit_9_80665 lit_3_141592653589793
         length radius mass bodyLength pivotPosition rpm gearRatio
         safetyFactor].

Ltac by_test t := destruct t; [reflexivity|].

Ltac by_tests_of l m :=
  by_test (length l <=? lit_0); by_test (radius l <=? lit_0);
  by_test (mass m <? lit_0); by_test (bodyLength m <? lit_0);
  by_test (pivotPosition m <? lit_0); by_test (rpm m <? lit_0);
  by_test (gearRatio m <? lit_0); by_test (safetyFactor m <? lit_1).

(** The function, in closed form: it reports the first check that fails,
    and when none fails it returns the results of the joints
    5, 4, 3, 2, 1, 0, in that order. *)
Lemma performCalculations_closed_form (d : InputData num) :
  performCalculations d =
  match first_violation d with
  | Some c => ErrorObject (message c)
  | None => Results (map (joint_result d) [5; 4; 3; 2; 1; 0])
  end.
Proof.
  destruct (Nat.eqb (List.length (links d)) 6) eqn:Hls;
    [destruct (Nat.eqb (List.length (motors d)) 6) eqn:Hms|].
  - apply Nat.eqb_eq in Hls, Hms.
    destruct d as [p rho ls ms]; cbn in Hls, Hms.
    destruct (length_6 ls Hls) as (l0 & l1 & l2 & l3 & l4 & l5 & ->).
    destruct (length_6 ms Hms) as (m0 & m1 & m2 & m3 & m4 & m5 & ->).
    clear Hls Hms.
    number_cbv.
    by_test (p <? lit_0). by_test (rho <? lit_0).
    by_tests_of l0 m0. by_tests_of l1 m1. by_tests_of l2 m2.
    by_tests_of l3 m3. by_tests_of l4 m4. by_tests_of l5 m5.
    reflexivity.
  - destruct (performCalculations_prefix d) as (K & ->).
    unfold first_violation, validation_order; cbn [app find violated].
    rewrite Hls, Hms; cbn [negb].
    destruct (m_payload d <? lit_0); [reflexivity|].
    destruct (density d <? lit_0); reflexivity.
  - destruct (performCalculations_prefix d) as (K & ->).
    unfold first_violation, validation_order; cbn [app find violated].
    rewrite Hls; cbn [negb].
    destruct (m_payload d <? lit_0); [reflexivity|].
    destruct (density d <? lit_0); reflexivity.
Qed.

Lemma find_none_iff {A : Type} (f : A -> bool) (xs : list A) :
  find f xs = None <-> Forall (fun x => f x = false) xs.
Proof.
  induction xs as [|x xs IH]; cbn.
  - split; [constructor | reflexivity].
  - destruct (f x) eqn:E.
    + split; [discriminate | intros H; inversion H; congruence].
    + rewrite IH. split; [now constructor | intros H; now inversion H].
Qed.

Lemma find_first {A : Type} (f : A -> bool) (pre : list A) (c : A)
  (post : list A) :
  Forall (fun x => f x = false) pre -> f c = true ->
  find f (pre ++ c :: post) = Some c.
Proof.
  intros Hpre Hc. induction Hpre as [|x pre Hx _ IH]; cbn.
  - now rewrite Hc.
  - now rewrite Hx.
Qed.

Lemma find_split {A : Type} (f : A -> bool) (xs : list A) (c : A) :
  find f xs = Some c ->
  exists pre post,
    xs = pre ++ c :: post /\ Forall (fun x => f x = false) pre /\ f c = true.
Proof.
  induction xs as [|x xs IH]; cbn; [discriminate|].
  destruct (f x) eqn:E.
  - intros [= ->]. exists [], xs. repeat split; [constructor | exact E].
  - intros H. destruct (IH H) as (pre & post & -> & Hpre & Hc).
    exists (x :: pre), post. repeat split; [now constructor | exact Hc].
Qed.

(** Passing validation is failing no check. *)
Lemma passes_validation_iff (d : InputData num) :
  passes_validation d <-> first_violation d = None.
Proof.
  unfold first_violation. rewrite find_none_iff. split.
  - intros (Hp & Hrho & Hls & Hms & Hl & Hm).
    destruct d as [p rho ls ms]; cbn in *.
    destruct (length_6 ls Hls) as (l0 & l1 & l2 & l3 & l4 & l5 & ->).
    destruct (length_6 ms Hms) as (m0 & m1 & m2 & m3 & m4 & m5 & ->).
    repeat match goal with
           | H : Forall _ (_ :: _) |- _ => inversion_clear H
           | H : link_ok _ |- _ => destruct H as (? & ?)
           | H : motor_ok _ |- _ => destruct H as (? & ? & ? & ? & ? & ?)
           end.
    repeat constructor; assumption.
  - intros H.
    assert (Hls : List.length (links d) = 6).
    { apply Forall_forall with (x := LinkCount) in H; [|cbn; tauto].
      cbn in H. apply negb_false_iff, Nat.eqb_eq in H. exact H. }
    assert (Hms : List.length (motors d) = 6).
    { apply Forall_forall with (x := MotorCount) in H; [|cbn; tauto].
      cbn in H. apply negb_false_iff, Nat.eqb_eq in H. exact H. }
    destruct d as [p rho ls ms]; cbn in Hls, Hms.
    destruct (length_6 ls Hls) as (l0 & l1 & l2 & l3 & l4 & l5 & ->).
    destruct (length_6 ms Hms) as (m0 & m1 & m2 & m3 & m4 & m5 & ->).
    unfold validation_order in H; cbn in H.
    repeat match goal with
           | H : Forall _ (_ :: _) |- _ => inversion_clear H
           end.
    unfold passes_validation, link_ok, motor_ok; cbn.
    repeat split; try assumption; repeat constructor; assumption.
Qed.

Lemma performCalculations_valid (d : InputData num) :
  passes_validation d ->
  performCalculations d = Results (map (joint_result d) [5; 4; 3; 2; 1; 0]).
Proof.
  intros H. apply passes_validation_iff in H.
  rewrite performCalculations_closed_form, H. reflexivity.
Qed.

(** Validation stops at the first check whose test fires. *)
Lemma performCalculations_rejects (d : InputData num) (pre : list Check)
  (c : Check) (post : list Check) :
  validation_order = pre ++ c :: post ->
  Forall (fun c' => violated d c' = false) pre ->
  violated d c = true ->
  performCalculations d = ErrorObject (message c).
Proof.
  intros Hsplit Hpre Hc.
  rewrite performCalculations_closed_form.
  unfold first_violation. rewrite Hsplit.
  now rewrite (find_first _ _ _ _ Hpre Hc).
Qed.

(** Joint [j] is reported at position [5 - j]. *)
Lemma nth_error_joint_results (d : InputData num) (j : nat) :
  j < 6 ->
  nth_error (map (joint_result d) [5; 4; 3; 2; 1; 0]) (5 - j)
  = Some (joint_result d j).
Proof.
  intros H. do 6 (destruct j as [|j]; [reflexivity|]). lia.
Qed.

Lemma nth_error_results_position (d : InputData num) (p : nat) :
  p < 6 ->
  nth_error (map (joint_result d) [5; 4; 3; 2; 1; 0]) p
  = Some (joint_result d (5 - p)).
Proof.
  intros H. do 6 (destruct p as [|p]; [reflexivity|]). lia.
Qed.

(** When the comparisons decide the constraints, the function rejects an
    input at the first constraint that it does not meet. *)
Lemma performCalculations_first_unmet (d : InputData num) :
  decisive d ->
  (exists c, In c validation_order /\ meets d c = false) ->
  exists pre c post,
    validation_order = pre ++ c :: post /\
    Forall (fun c' => meets d c' = true) pre /\
    meets d c = false /\
    performCalculations d = ErrorObject (message c).
Proof.
  intros Hdec (c0 & Hin & Hc0).
  destruct (first_violation d) as [c|] eqn:E.
  - destruct (find_split _ _ _ E) as (pre & post & Hsplit & Hpre & Hc).
    exists pre, c, post.
    split; [exact Hsplit|].
    split.
    { apply Forall_forall. intros c' Hc'.
      rewrite Forall_forall in Hpre. specialize (Hpre c' Hc').
      rewrite Hdec in Hpre by (rewrite Hsplit; apply in_or_app; now left).
      now apply negb_false_iff in Hpre. }
    split.
    { rewrite Hdec in Hc by (rewrite Hsplit; apply in_elt).
      now apply negb_true_iff in Hc. }
    now apply performCalculations_rejects with pre post.
  - exfalso. unfold first_violation in E.
    rewrite find_none_iff, Forall_forall in E.
    specialize (E c0 Hin). rewrite (Hdec c0 Hin), Hc0 in E. discriminate E.
Qed.

(** Validation looks at each pivot position on its own: pivots that pass
    the test [pivot < 0] can replace those of an input that passes
    validation, whatever the lengths of the links. *)
Lemma validation_ignores_arm_length (d : InputData num) (ps : list num) :
  passes_validation d ->
  List.length ps = 6 ->
  Forall (fun p => (p <? lit_0) = false) ps ->
  passes_validation (with_pivots d ps).
Proof.
  intros (Hp & Hrho & Hls & Hms & Hl & Hm) Hps Hpos.
  destruct d as [p rho ls ms]; cbn in *.
  destruct (length_6 ms Hms) as (m0 & m1 & m2 & m3 & m4 & m5 & ->).
  destruct (length_6 ps Hps) as (p0 & p1 & p2 & p3 & p4 & p5 & ->).
  repeat match goal with
         | H : Forall _ (_ :: _) |- _ => inversion_clear H
         | H : motor_ok _ |- _ => destruct H as (? & ? & ? & ? & ? & ?)
         end.
  unfold passes_validation, motor_ok; cbn.
  repeat split; try assumption; repeat constructor; assumption.
Qed.

End Characterisation.

(** ** Messages *)

Lemma Check_eqb_eq (c1 c2 : Check) : Check_eqb c1 c2 = true -> c1 = c2.
Proof.
  destruct c1, c2; cbn; try discriminate; try reflexivity;
    intros H; apply Nat.eqb_eq in H; now subst.
Qed.

(** No two checks share a message: the message names the check, by its
    field and by the index of its link or motor. *)
Lemma message_names_check (c c' : Check) :
  In c validation_order -> In c' validation_order ->
  message c' = message c -> c' = c.
Proof.
  intros Hc Hc' Hm.
  assert (H : forallb (fun c1 =>
                forallb (fun c2 =>
                  implb (String.eqb (message c1) (message c2))
                        (Check_eqb c1 c2))
                  validation_order)
                validation_order = true) by (vm_compute; reflexivity).
  rewrite forallb_forall in H. specialize (H c' Hc').
  rewrite forallb_forall in H. specialize (H c Hc).
  rewrite Hm, String.eqb_refl in H. now apply Check_eqb_eq.
Qed.

Lemma message_safety_factor (i : nat) :
  In (MotorSafetyFactor i) validation_order ->
  contains "safety factor" (message (MotorSafetyFactor i)) = true /\
  contains ("Motor " ++ show (i + 1)) (message (MotorSafetyFactor i)) = true.
Proof.
  intros H. cbn in H.
  repeat (destruct H as [H|H]; [try discriminate H|]); try contradiction;
    injection H as <-; split; reflexivity.
Qed.

(** ** The order of summation *)

(** Each block of the function adds exactly the contributions that the
    specification lists for its joint, each once. *)
Lemma summation_order_permutation (j : nat) :
  j < 6 -> Permutation (summation_order j) (spec_terms j).
Proof.
  intros Hj.
  do 6 (destruct j as [|j];
        [apply NoDup_Permutation;
         [ repeat (constructor; [cbn; intuition discriminate|]); constructor
         | repeat (constructor; [cbn; intuition discriminate|]); constructor
         | intros x; cbn; tauto ]
        |]).
  lia.
Qed.

(** ** The payload in the total torque *)

Section Payload.

Context {num : Type} {N : JsNumber num}.

Lemma spec_S_same_arm (d1 d2 : InputData num) (i : nat) :
  links d1 = links d2 -> spec_S d1 i = spec_S d2 i.
Proof.
  intros H. induction i as [|i IH]; cbn [spec_S]; unfold link; rewrite H;
    [reflexivity | now rewrite IH].
Qed.

(** Only the payload contribution mentions the payload mass. *)
Lemma spec_term_same_arm (d1 d2 : InputData num) (j : nat) (t : Term) :
  same_arm d1 d2 -> t <> PayloadTerm ->
  spec_term d1 j t = spec_term d2 j t.
Proof.
  intros (Hrho & Hls & Hms) Ht.
  destruct t as [|k|k]; [contradiction| |];
    unfold spec_term, spec_W_link, spec_W_motor, pivot, motor, link;
    rewrite ?(spec_S_same_arm d1 d2 _ Hls), ?Hrho, ?Hls, ?Hms; reflexivity.
Qed.

Lemma spec_terms_tail (j : nat) (t : Term) :
  In t (map LinkTerm (seq j (6 - j)) ++ map MotorTerm (seq (S j) (5 - j))) ->
  t <> PayloadTerm.
Proof.
  intros H ->. apply in_app_or in H.
  destruct H as [H|H]; apply in_map_iff in H;
    destruct H as (k & Hk & _); discriminate Hk.
Qed.

End Payload.

(** ** binary64: comparisons without NaN *)

Section Binary64.

Lemma SFcompare_antisym (x y : spec_float) (c : comparison) :
  SFcompare x y = Some c -> SFcompare y x = Some (CompOpp c).
Proof.
  destruct x as [sx|sx| |sx mx ex], y as [sy|sy| |sy my ey]; cbn;
    try discriminate;
    try (destruct sx); try (destruct sy); cbn;
    try (intros [= <-]; reflexivity).
  all: rewrite (Z.compare_antisym ex ey);
    destruct (Z.compare ex ey); cbn; intros [= <-]; try reflexivity;
    f_equal; rewrite ?CompOpp_involutive.
  - exact (Pos.compare_cont_antisym my mx Eq).
  - symmetry. exact (Pos.compare_cont_antisym mx my Eq).
Qed.

Lemma is_nan_Prim2SF (x : float) :
  is_nan x = false -> Prim2SF x <> S754_nan.
Proof.
  unfold is_nan. rewrite negb_false_iff, eqb_spec. unfold SFeqb.
  intros H E. rewrite E in H. discriminate H.
Qed.

Lemma SFcompare_defined (x y : spec_float) :
  x <> S754_nan -> y <> S754_nan -> exists c, SFcompare x y = Some c.
Proof.
  destruct x, y; cbn; intros Hx Hy; try congruence; eexists; reflexivity.
Qed.

(** On numbers other than NaN, [x < y] is the negation of [y <= x]. *)
Lemma float_ltb_leb (x y : float) :
  is_nan x = false -> is_nan y = false ->
  PrimFloat.ltb x y = negb (PrimFloat.leb y x).
Proof.
  intros Hx Hy. rewrite ltb_spec, leb_spec. unfold SFltb, SFleb.
  destruct (SFcompare_defined _ _ (is_nan_Prim2SF x Hx) (is_nan_Prim2SF y Hy))
    as (c & E).
  rewrite E, (SFcompare_antisym _ _ _ E). now destruct c.
Qed.

Lemma float_leb_ltb (x y : float) :
  is_nan x = false -> is_nan y = false ->
  PrimFloat.leb x y = negb (PrimFloat.ltb y x).
Proof.
  intros Hx Hy. rewrite (float_ltb_leb y x Hy Hx). now rewrite negb_involutive.
Qed.

(** A zero, of either sign, is not below 0. *)
Lemma float_eqb_zero_ltb (x : float) :
  PrimFloat.eqb x 0 = true -> PrimFloat.ltb x 0 = false.
Proof.
  rewrite eqb_spec, ltb_spec. unfold SFeqb, SFltb.
  destruct (SFcompare (Prim2SF x) (Prim2SF 0)) as [[| |]|];
    intros H; first [reflexivity | discriminate H].
Qed.

Lemma nan_free_link (d : InputData float) (i : nat) :
  nan_free d ->
  is_nan (length (link d i)) = false /\ is_nan (radius (link d i)) = false.
Proof.
  intros (_ & _ & Hl & _). unfold link.
  destruct (Nat.lt_ge_cases i (List.length (links d))) as [Hi|Hi].
  - rewrite Forall_forall in Hl. apply Hl, nth_In, Hi.
  - rewrite nth_overflow by exact Hi. split; reflexivity.
Qed.

Lemma nan_free_motor (d : InputData float) (i : nat) :
  nan_free d ->
  is_nan (mass (motor d i)) = false /\
  is_nan (bodyLength (motor d i)) = false /\
  is_nan (pivotPosition (motor d i)) = false /\
  is_nan (rpm (motor d i)) = false /\
  is_nan (gearRatio (motor d i)) = false /\
  is_nan (safetyFactor (motor d i)) = false.
Proof.
  intros (_ & _ & _ & Hm). unfold motor.
  destruct (Nat.lt_ge_cases i (List.length (motors d))) as [Hi|Hi].
  - rewrite Forall_forall in Hm. apply Hm, nth_In, Hi.
  - rewrite nth_overflow by exact Hi. repeat split; reflexivity.
Qed.

(** On a binary64 input without NaN the comparisons decide the
    constraints. *)
Lemma nan_free_decisive (d : InputData float) : nan_free d -> decisive d.
Proof.
  intros H c _.
  pose proof H as (Hp & Hrho & _ & _).
  destruct c as [| | | |i|i|i|i|i|i|i|i];
    cbn [violated meets ltb leb lit_0 lit_1 JsNumber_float];
    try reflexivity;
    try (destruct (nan_free_link d i H) as (? & ?));
    try (destruct (nan_free_motor d i H) as (? & ? & ? & ? & ? & ?));
    first [ now apply float_ltb_leb | now apply float_leb_ltb ].
Qed.

(** *** Adding zeros *)

Lemma eqb_zero_Prim2SF (x : float) :
  PrimFloat.eqb x 0 = true <-> exists s, Prim2SF x = S754_zero s.
Proof.
  rewrite eqb_spec. unfold SFeqb.
  change (Prim2SF 0) with (S754_zero false).
  destruct (Prim2SF x) as [s|s| |s m e]; cbn; try destruct s; split;
    try discriminate; try (intros (s' & H); discriminate H); eauto.
Qed.

Lemma is_finite_Prim2SF (x : float) :
  is_finite x = true ->
  (exists s, Prim2SF x = S754_zero s) \/
  (exists s m e, Prim2SF x = S754_finite s m e).
Proof.
  unfold is_finite. rewrite negb_true_iff, orb_false_iff.
  intros (Hnan & Hinf).
  apply is_nan_Prim2SF in Hnan.
  unfold is_infinity in Hinf. rewrite eqb_spec, abs_spec in Hinf.
  change (Prim2SF infinity) with (S754_infinity false) in Hinf.
  destruct (Prim2SF x) as [s|s| |s m e]; eauto; [|congruence].
  cbn in Hinf. discriminate Hinf.
Qed.

(** A zero times a finite number is a zero. *)
Lemma mul_zero_l (w a : float) :
  PrimFloat.eqb w 0 = true -> is_finite a = true ->
  PrimFloat.eqb (w * a) 0 = true.
Proof.
  intros Hw Ha. apply eqb_zero_Prim2SF in Hw. destruct Hw as (s & Hw).
  apply eqb_zero_Prim2SF. rewrite mul_spec, Hw.
  destruct (is_finite_Prim2SF a Ha) as [(s' & ->)|(s' & m & e & ->)];
    cbn; eauto.
Qed.

Lemma mul_zero_r (a w : float) :
  is_finite a = true -> PrimFloat.eqb w 0 = true ->
  PrimFloat.eqb (a * w) 0 = true.
Proof.
  intros Ha Hw. apply eqb_zero_Prim2SF in Hw. destruct Hw as (s & Hw).
  apply eqb_zero_Prim2SF. rewrite mul_spec, Hw.
  destruct (is_finite_Prim2SF a Ha) as [(s' & ->)|(s' & m & e & ->)];
    cbn; eauto.
Qed.

Lemma same_number_trans (x y z : float) :
  same_number x y -> same_number y z -> same_number x z.
Proof.
  intros [->|(Hx & Hy)] [->|(Hy' & Hz)]; unfold same_number; auto.
Qed.

(** Adding a zero changes at most the sign of a zero. *)
Lemma add_zero_r (x z : float) :
  PrimFloat.eqb z 0 = true -> same_number (x + z) x.
Proof.
  intros Hz. apply eqb_zero_Prim2SF in Hz. destruct Hz as (s & Hz).
  destruct (Prim2SF x) as [sx|sx| |sx mx ex] eqn:Hx.
  - right. split; apply eqb_zero_Prim2SF; [|eauto].
    rewrite add_spec, Hx, Hz. cbn. destruct sx, s; eauto.
  - left. apply Prim2SF_inj. rewrite add_spec, Hx, Hz. reflexivity.
  - left. apply Prim2SF_inj. rewrite add_spec, Hx, Hz. reflexivity.
  - left. apply Prim2SF_inj. rewrite add_spec, Hx, Hz. reflexivity.
Qed.

Lemma add_same_number (x x' y : float) :
  same_number x x' -> same_number (x + y) (x' + y).
Proof.
  intros [->|(Hx & Hx')]; [now left|].
  apply eqb_zero_Prim2SF in Hx, Hx'.
  destruct Hx as (s & Hx), Hx' as (s' & Hx').
  destruct (Prim2SF y) as [sy|sy| |sy my ey] eqn:Hy.
  - right. split; apply eqb_zero_Prim2SF; rewrite add_spec, ?Hx, ?Hx', Hy; cbn.
    + destruct s, sy; eauto.
    + destruct s', sy; eauto.
  - left. apply Prim2SF_inj. rewrite !add_spec, Hx, Hx', Hy. reflexivity.
  - left. apply Prim2SF_inj. rewrite !add_spec, Hx, Hx', Hy. reflexivity.
  - left. apply Prim2SF_inj. rewrite !add_spec, Hx, Hx', Hy. reflexivity.
Qed.

(** A sum from the left keeps its value, up to the sign of a zero, when
    the contributions of the links are zeros and are left out. *)
Lemma fold_left_without_links (f : Term -> float) (ts : list Term)
  (x x' : float) :
  same_number x x' ->
  (forall t, In t ts -> is_link_term t = true -> PrimFloat.eqb (f t) 0 = true) ->
  same_number (fold_left add (map f ts) x)
              (fold_left add (map f (without_links ts)) x').
Proof.
  revert x x'. induction ts as [|t ts IH]; intros x x' Hx Hzero; [exact Hx|].
  cbn [map fold_left without_links filter].
  destruct (is_link_term t) eqn:Et; cbn [negb].
  - apply IH; [|intros u Hu; apply Hzero; now right].
    apply same_number_trans with x; [|exact Hx].
    apply add_zero_r, Hzero; [now left | exact Et].
  - cbn [map fold_left]. apply IH; [|intros u Hu; apply Hzero; now right].
    now apply add_same_number.
Qed.

(** With a density of zero a link weighs zero, unless the square of its
    radius or its length is infinite or NaN. *)
Lemma spec_W_link_zero_binary64 (d : InputData float) (k : nat) :
  PrimFloat.eqb (density d) 0 = true ->
  is_finite (sqr (radius (link d k))) = true ->
  is_finite (length (link d k)) = true ->
  PrimFloat.eqb (spec_W_link d k) 0 = true.
Proof.
  intros Hrho Hr Hl. unfold spec_W_link.
  cbn [mul lit_9_80665 lit_3_141592653589793 JsNumber_float].
  apply mul_zero_l; [|exact Hl].
  apply mul_zero_l; [|exact Hr].
  apply mul_zero_l; [|reflexivity].
  apply mul_zero_r; [reflexivity | exact Hrho].
Qed.

Lemma summation_order_links (j : nat) (t : Term) :
  j < 6 -> In t (summation_order j) -> is_link_term t = true ->
  exists k, t = LinkTerm k /\ j <= k < 6.
Proof.
  intros Hj Ht Hlink.
  do 6 (destruct j as [|j];
        [cbn in Ht;
         repeat (destruct Ht as [<-|Ht];
                 [first [discriminate Hlink | eexists; split; [reflexivity|lia]]|]);
         contradiction|]).
  lia.
Qed.

(** The total torque of a joint without the links: when the weights of the
    links are zeros and their lever arms are finite, the block of joint [j]
    computes the sum of its other contributions. *)
Lemma T_total_without_links (d : InputData float) (j : nat) :
  j < 6 ->
  (forall k, j <= k < 6 ->
     PrimFloat.eqb (spec_W_link d k) 0 = true /\
     is_finite (spec_S d k - pivot d j - length (link d k) / 2) = true) ->
  same_number
    (T_total (joint_result d j))
    (sum_left (map (spec_term d j) (without_links (summation_order j)))).
Proof.
  intros Hj Hzero.
  assert (Hterm : forall t, In t (summation_order j) ->
                            is_link_term t = true ->
                            PrimFloat.eqb (spec_term d j t) 0 = true).
  { intros t Ht Hlink.
    destruct (summation_order_links j t Hj Ht Hlink) as (k & -> & Hk).
    destruct (Hzero k Hk) as (Hw & Harm).
    cbn [spec_term]. now apply mul_zero_l. }
  cbn [joint_result T_total].
  do 6 (destruct j as [|j];
        [cbn [summation_order];
         match goal with
         | |- same_number (sum_left (map ?f (?t :: ?rest))) _ =>
             exact (fold_left_without_links f rest (f t) (f t)
                      (or_introl eq_refl)
                      (fun u Hu => Hterm u (or_intror Hu)))
         end
        |]).
  lia.
Qed.

(** What remains are the payload and the motors [k > j]. *)
Lemma without_links_summation_order (j : nat) :
  j < 6 ->
  Permutation (without_links (summation_order j)) (payload_and_motor_terms j).
Proof.
  intros Hj.
  do 6 (destruct j as [|j];
        [apply NoDup_Permutation;
         [ repeat (constructor; [cbn; intuition discriminate|]); constructor
         | repeat (constructor; [cbn; intuition discriminate|]); constructor
         | intros x; cbn; tauto ]
        |]).
  lia.
Qed.

End Binary64.

(** ** Exact arithmetic *)

Ltac q_ops :=
  change (@add Q JsNumber_Q) with Qplus in *;
  change (@sub Q JsNumber_Q) with Qminus in *;
  change (@mul Q JsNumber_Q) with Qmult in *;
  change (@div Q JsNumber_Q) with Qdiv in *;
  change (@lit_0 Q JsNumber_Q) with 0%Q in *;
  change (@lit_1 Q JsNumber_Q) with 1%Q in *;
  change (@lit_2 Q JsNumber_Q) with 2%Q in *;
  change (@lit_9_80665 Q JsNumber_Q) with 9.80665%Q in *.

Section Exact.

Local Open Scope Q_scope.

(** Over the rationals the comparisons decide the constraints of every
    input, and a constraint is met when it holds. *)
Lemma exact_decisive (d : InputData Q) : decisive d.
Proof.
  intros c _.
  destruct c; cbn [violated meets ltb leb lit_0 lit_1 JsNumber_Q];
    rewrite ?negb_involutive; reflexivity.
Qed.

Lemma meets_iff_satisfied (d : InputData Q) (c : Check) :
  meets d c = true <-> satisfied d c.
Proof.
  destruct c; cbn [meets satisfied ltb leb JsNumber_Q lit_0 lit_1];
    rewrite ?Qle_bool_iff, ?Nat.eqb_eq; try reflexivity.
  all: rewrite negb_true_iff, <- not_true_iff_false, Qle_bool_iff;
    split; [apply Qnot_le_lt | apply Qlt_not_le].
Qed.

Lemma violated_false_iff (d : InputData Q) (c : Check) :
  violated d c = false <-> satisfied d c.
Proof.
  rewrite <- meets_iff_satisfied.
  destruct c; cbn [violated meets ltb leb lit_0 lit_1 JsNumber_Q];
    rewrite ?negb_false_iff, ?negb_true_iff; reflexivity.
Qed.

Lemma passes_validation_satisfied (d : InputData Q) :
  passes_validation d <-> Forall (satisfied d) validation_order.
Proof.
  rewrite passes_validation_iff. unfold first_violation.
  rewrite find_none_iff, !Forall_forall.
  split; intros H c Hc; apply violated_false_iff, H, Hc.
Qed.

Lemma total_cons (x : Q) (xs : list Q) : total (x :: xs) = x + total xs.
Proof. reflexivity. Qed.

Lemma total_app (xs ys : list Q) : total (xs ++ ys) == total xs + total ys.
Proof.
  induction xs as [|x xs IH]; cbn [app].
  - unfold total at 2; cbn; q_ops. ring.
  - rewrite !total_cons, IH. ring.
Qed.

Lemma total_permutation (xs ys : list Q) :
  Permutation xs ys -> total xs == total ys.
Proof.
  induction 1 as [|x xs ys _ IH|x y xs|xs ys zs _ IH1 _ IH2].
  - reflexivity.
  - rewrite !total_cons, IH. reflexivity.
  - rewrite !total_cons. ring.
  - now rewrite IH1.
Qed.

Lemma fold_left_total (xs : list Q) (x : Q) :
  fold_left add xs x == x + total xs.
Proof.
  revert x. induction xs as [|y xs IH]; intros x; cbn [fold_left].
  - unfold total; cbn; q_ops. ring.
  - rewrite IH, total_cons. q_ops. ring.
Qed.

Lemma sum_left_total (xs : list Q) : sum_left xs == total xs.
Proof.
  destruct xs as [|x xs]; [reflexivity|].
  cbn [sum_left]. now rewrite fold_left_total.
Qed.

(** In exact arithmetic the order of summation does not matter. *)
Lemma T_total_spec_torque (d : InputData Q) (j : nat) :
  (j < 6)%nat -> T_total (joint_result d j) == spec_torque d j.
Proof.
  intros Hj. cbn [joint_result T_total]. rewrite sum_left_total.
  apply total_permutation, Permutation_map, summation_order_permutation, Hj.
Qed.

(** Between two inputs that differ in the payload mass alone, the torque
    of a joint changes by the weight added times the lever arm of the
    payload. *)
Lemma spec_torque_payload (d1 d2 : InputData Q) (j : nat) :
  same_arm d1 d2 ->
  spec_torque d2 j - spec_torque d1 j
  == 9.80665 * ((m_payload d2 - m_payload d1) * (spec_S d1 5 - pivot d1 j)).
Proof.
  intros H. unfold spec_torque, spec_terms.
  cbn [map]. rewrite !total_cons.
  rewrite (map_ext_in (spec_term d1 j) (spec_term d2 j)).
  - cbn [spec_term]. unfold spec_W_payload, pivot, motor.
    destruct H as (_ & Hls & Hms).
    rewrite (spec_S_same_arm d1 d2 5 Hls), Hms. q_ops. ring.
  - intros t Ht. apply spec_term_same_arm; [exact H|].
    now apply spec_terms_tail with j.
Qed.

Lemma spec_W_link_zero (d : InputData Q) (i : nat) :
  density d == 0 -> spec_W_link d i == 0.
Proof.
  intros H. unfold spec_W_link. q_ops. rewrite H. ring.
Qed.

Lemma total_link_terms_zero (d : InputData Q) (j : nat) (ks : list nat) :
  density d == 0 -> total (map (spec_term d j) (map LinkTerm ks)) == 0.
Proof.
  intros H. induction ks as [|k ks IH]; [reflexivity|].
  cbn [map]. rewrite total_cons, IH. cbn [spec_term].
  q_ops. rewrite (spec_W_link_zero d k H). ring.
Qed.

(** Without density the links weigh nothing. *)
Lemma spec_torque_zero_density (d : InputData Q) (j : nat) :
  density d == 0 ->
  spec_torque d j == total (map (spec_term d j) (payload_and_motor_terms j)).
Proof.
  intros H. unfold spec_torque, spec_terms, payload_and_motor_terms.
  cbn [map]. rewrite !total_cons, map_app, total_app.
  rewrite (total_link_terms_zero d j _ H). ring.
Qed.

(** Over the rationals an input that violates a constraint is rejected at
    the first constraint that it violates. *)
Lemma rejects_first_violated_constraint (d : InputData Q) :
  (exists c, In c validation_order /\ ~ satisfied d c) ->
  exists pre c post,
    validation_order = pre ++ c :: post /\
    Forall (satisfied d) pre /\
    ~ satisfied d c /\
    performCalculations d = ErrorObject (message c).
Proof.
  intros (c0 & Hin & Hc0).
  destruct (performCalculations_first_unmet d (exact_decisive d))
    as (pre & c & post & Hsplit & Hpre & Hc & Hrun).
  - exists c0. split; [exact Hin|].
    apply not_true_iff_false. now rewrite meets_iff_satisfied.
  - exists pre, c, post. repeat split; try assumption.
    + eapply Forall_impl; [|exact Hpre].
      intros a Ha. now apply meets_iff_satisfied.
    + rewrite <- meets_iff_satisfied, Hc. discriminate.
Qed.

End Exact.

(** The sample values give, for motor 6, the torque that the specification
    computes by hand: [g * 5 * (1.8 - 1.7) + W_link6 * (1.8 - 1.7 - 0.05)]
    with [W_link6 = g * 2700 * pi * 0.01^2 * 0.1]. *)
Example sample_motor_6 :
  exists r rs,
    performCalculations dummy_Q = Results (r :: rs) /\
    (T_total r
     == 9.80665 * 5 * (1.8 - 1.7)
        + 9.80665 * 2700 * 3.141592653589793 * (0.01 * 0.01) * 0.1
          * (1.8 - 1.7 - 0.05))%Q.
Proof.
  do 2 eexists. split; [vm_compute; reflexivity|]. reflexivity.
Qed.

(** The two decimal literals of the function denote, in binary64, the
    numbers closest to them. *)
Example literals_binary64 :
  (lit_9_80665 : float) = (980665 / 100000)%float /\
  (lit_3_141592653589793 : float)
  = (3141592653589793 / 1000000000000000)%float.
Proof. split; reflexivity. Qed.

Ltac prove_valid :=
  unfold passes_validation;
  repeat (split; [vm_compute; reflexivity|]);
  split; repeat constructor.

Ltac prove_nan_free :=
  unfold nan_free;
  repeat (split; [vm_compute; reflexivity|]);
  split; repeat constructor.

(** ** binary64: rounding keeps the order *)

Section Rounding.

Local Open Scope Z_scope.

Lemma iter_pos_nat {A : Type} (f : A -> A) (p : positive) (x : A) :
  iter_pos f p x = Nat.iter (Pos.to_nat p) f x.
Proof.
  revert x. induction p as [p IH|p IH|]; intros x; cbn [iter_pos].
  - rewrite !IH, <- Nat.iter_add, <- Nat.iter_succ_r. f_equal. lia.
  - rewrite !IH, <- Nat.iter_add. f_equal. lia.
  - reflexivity.
Qed.

Lemma shr_1_m (mrs : shr_record) :
  0 <= shr_m mrs -> shr_m (shr_1 mrs) = shr_m mrs / 2.
Proof.
  rewrite <- Z.div2_div.
  destruct mrs as [[|[p|p|]|p] r s]; cbn [shr_m]; intros H;
    first [reflexivity | lia].
Qed.

Lemma shr_1_code (mrs : shr_record) :
  0 <= shr_m mrs ->
  shr_code (shr_1 mrs)
  = 2 * shr_m mrs + (if shr_r mrs || shr_s mrs then 1 else 0).
Proof.
  destruct mrs as [[|[p|p|]|p] r s]; unfold shr_code;
    cbn [shr_1 shr_m shr_r shr_s]; intros H; try lia;
    destruct r, s; cbn [orb]; lia.
Qed.

Lemma shr_1_mono (a b : shr_record) :
  0 <= shr_m a -> 0 <= shr_m b ->
  shr_code a <= shr_code b -> shr_code (shr_1 a) <= shr_code (shr_1 b).
Proof.
  intros Ha Hb. rewrite !shr_1_code by assumption.
  unfold shr_code. destruct a as [ma [|] [|]], b as [mb [|] [|]];
    cbn [shr_m shr_r shr_s orb] in *; lia.
Qed.

Lemma shr_n_nonneg (n : nat) (mrs : shr_record) :
  0 <= shr_m mrs -> 0 <= shr_m (shr_n n mrs).
Proof.
  intros H. induction n as [|n IH]; cbn; [exact H|].
  rewrite shr_1_m by exact IH. apply Z.div_pos; [exact IH | lia].
Qed.

Lemma shr_n_mono (n : nat) (a b : shr_record) :
  0 <= shr_m a -> 0 <= shr_m b ->
  shr_code a <= shr_code b ->
  shr_code (shr_n n a) <= shr_code (shr_n n b).
Proof.
  intros Ha Hb H. induction n as [|n IH]; cbn; [exact H|].
  apply shr_1_mono; [now apply shr_n_nonneg | now apply shr_n_nonneg | exact IH].
Qed.

Lemma shr_round_bounds (mrs : shr_record) :
  shr_m mrs <= shr_round mrs <= shr_m mrs + 1.
Proof.
  unfold shr_round. destruct mrs as [m [|] [|]];
    cbn [shr_m shr_r shr_s round_nearest_even loc_of_shr_record]; try lia.
  destruct (Z.even m); lia.
Qed.

Lemma shr_round_mono (a b : shr_record) :
  shr_code a <= shr_code b -> shr_round a <= shr_round b.
Proof.
  unfold shr_code, shr_round.
  destruct a as [ma [|] [|]], b as [mb [|] [|]];
    cbn [shr_m shr_r shr_s round_nearest_even loc_of_shr_record]; intros H;
    try lia.
  all: try (destruct (Z.even ma) eqn:Ea); try (destruct (Z.even mb) eqn:Eb);
    try lia.
  all: destruct (Z.eq_dec ma mb); [subst; congruence | lia].
Qed.

Lemma shr_n_m (n : nat) (mrs : shr_record) :
  0 <= shr_m mrs -> shr_m (shr_n n mrs) = shr_m mrs / 2 ^ Z.of_nat n.
Proof.
  intros H. induction n as [|n IH]; [cbn; now rewrite Z.div_1_r|].
  change (shr_n (S n) mrs) with (shr_1 (shr_n n mrs)).
  rewrite shr_1_m by now apply shr_n_nonneg. rewrite IH.
  rewrite Z.div_div by lia.
  rewrite Nat2Z.inj_succ, Z.pow_succ_r by lia.
  f_equal. lia.
Qed.

Lemma shr_1_exact (m : Z) :
  0 <= m -> shr_1 (shr_exact (2 * m)) = shr_exact m.
Proof.
  intros H. destruct m as [|p|p]; [reflexivity | reflexivity | lia].
Qed.

Lemma shr_n_exact (j : nat) (m : Z) :
  0 <= m -> shr_n j (shr_exact (m * 2 ^ Z.of_nat j)) = shr_exact m.
Proof.
  intros H. revert m H. induction j as [|j IH]; intros m H.
  - cbn. now rewrite Z.mul_1_r.
  - unfold shr_n. rewrite Nat.iter_succ_r. fold (shr_n j).
    rewrite Nat2Z.inj_succ, Z.pow_succ_r by lia.
    replace (m * (2 * 2 ^ Z.of_nat j)) with (2 * (m * 2 ^ Z.of_nat j)) by lia.
    rewrite shr_1_exact by (apply Z.mul_nonneg_nonneg; [lia|apply Z.pow_nonneg; lia]).
    now apply IH.
Qed.

Lemma shr_shr_n (mrs : shr_record) (e k : Z) :
  0 <= k -> shr mrs e k = (shr_n (Z.to_nat k) mrs, e + k).
Proof.
  intros H. destruct k as [|p|p]; [|unfold shr|lia].
  - cbn. now rewrite Z.add_0_r.
  - rewrite iter_pos_nat. reflexivity.
Qed.

(** *** The number of binary digits *)
Lemma digits2_pos_bounds (p : positive) :
  2 ^ (Zpos (digits2_pos p) - 1) <= Zpos p < 2 ^ Zpos (digits2_pos p).
Proof.
  induction p as [p IH|p IH|]; cbn [digits2_pos];
    rewrite ?Pos2Z.inj_succ.
  - replace (Z.succ (Z.pos (digits2_pos p)) - 1) with (Z.succ (Z.pos (digits2_pos p) - 1)) by lia.
    rewrite !Z.pow_succ_r by lia. lia.
  - replace (Z.succ (Z.pos (digits2_pos p)) - 1) with (Z.succ (Z.pos (digits2_pos p) - 1)) by lia.
    rewrite !Z.pow_succ_r by lia. lia.
  - cbn. lia.
Qed.

Lemma Zdigits2_bounds (x : Z) :
  0 < x -> 0 < Zdigits2 x /\ 2 ^ (Zdigits2 x - 1) <= x < 2 ^ Zdigits2 x.
Proof.
  destruct x as [|p|p]; try lia. intros _. cbn [Zdigits2].
  split; [lia | apply digits2_pos_bounds].
Qed.

Lemma Zdigits2_le (x d : Z) : 0 < x -> x < 2 ^ d -> Zdigits2 x <= d.
Proof.
  intros Hx H. destruct (Zdigits2_bounds x Hx) as (Hd & Hl & _).
  destruct (Z_le_gt_dec (Zdigits2 x) d) as [|Hgt]; [assumption|].
  assert (2 ^ d <= 2 ^ (Zdigits2 x - 1)) by (apply Z.pow_le_mono_r; lia).
  lia.
Qed.

Lemma Zdigits2_ge (x d : Z) : 0 < x -> 2 ^ (d - 1) <= x -> d <= Zdigits2 x.
Proof.
  intros Hx H. destruct (Zdigits2_bounds x Hx) as (Hd & _ & Hu).
  destruct (Z_le_gt_dec d (Zdigits2 x)) as [|Hgt]; [assumption|].
  assert (2 ^ Zdigits2 x <= 2 ^ (d - 1)) by (apply Z.pow_le_mono_r; lia).
  lia.
Qed.

Lemma Zdigits2_mono (x y : Z) : 0 < x -> x <= y -> Zdigits2 x <= Zdigits2 y.
Proof.
  intros Hx H. apply Zdigits2_le; [exact Hx|].
  destruct (Zdigits2_bounds y ltac:(lia)) as (_ & _ & Hu). lia.
Qed.

Lemma Zdigits2_shift (x j : Z) :
  0 < x -> 0 <= j -> Zdigits2 (x * 2 ^ j) = Zdigits2 x + j.
Proof.
  intros Hx Hj.
  destruct (Zdigits2_bounds x Hx) as (Hd & Hl & Hu).
  assert (Hp : 0 < 2 ^ j) by (apply Z.pow_pos_nonneg; lia).
  assert (Hxj : 0 < x * 2 ^ j) by nia.
  apply Z.le_antisymm.
  - apply Zdigits2_le; [exact Hxj|].
    rewrite Z.pow_add_r by lia. nia.
  - apply Zdigits2_ge; [exact Hxj|].
    replace (Zdigits2 x + j - 1) with (Zdigits2 x - 1 + j) by lia.
    rewrite Z.pow_add_r by lia. nia.
Qed.

Lemma fexp_spec (n : Z) : fexp prec emax n = Z.max (n - 53) (-1074).
Proof. reflexivity. Qed.

Lemma emin_spec : emin = -1074.
Proof. reflexivity. Qed.

Lemma emax_spec : emax = 1024.
Proof. reflexivity. Qed.

Lemma prec_spec : prec = 53.
Proof. reflexivity. Qed.

Lemma pow2_pos (a : Z) : 0 <= a -> 0 < 2 ^ a.
Proof. intros. apply Z.pow_pos_nonneg; lia. Qed.

Lemma mul_pow2_lt (q a b A : Z) :
  0 <= q < 2 ^ A -> 0 <= A -> 0 <= a <= b -> q * 2 ^ a < 2 ^ (A + b).
Proof.
  intros Hq HA Hab. rewrite Z.pow_add_r by lia.
  assert (0 < 2 ^ a) by (apply pow2_pos; lia).
  assert (2 ^ a <= 2 ^ b) by (apply Z.pow_le_mono_r; lia).
  nia.
Qed.

Lemma mul_pow2_ge (q a b A : Z) :
  2 ^ A <= q -> 0 <= A -> 0 <= b <= a -> 2 ^ (A + b) <= q * 2 ^ a.
Proof.
  intros Hq HA Hab. rewrite Z.pow_add_r by lia.
  assert (0 < 2 ^ b) by (apply pow2_pos; lia).
  assert (0 < 2 ^ A) by (apply pow2_pos; lia).
  assert (2 ^ b <= 2 ^ a) by (apply Z.pow_le_mono_r; lia).
  nia.
Qed.

(** The mantissa kept after the shift, and its rounding. *)
Lemma shifted_bounds (X e0 : Z) :
  0 < X ->
  let e' := fexp prec emax (Zdigits2 X + e0) in
  let mrs := shr_n (Z.to_nat (e' - e0)) (shr_exact X) in
  0 <= e' - e0 ->
  0 <= shr_m mrs < 2 ^ 53 /\
  (-1074 < e' -> 2 ^ 52 <= shr_m mrs).
Proof.
  intros HX e' mrs Hk.
  destruct (Zdigits2_bounds X HX) as (Hd & Hl & Hu).
  unfold mrs. rewrite shr_n_m by (cbn; lia). cbn [shr_exact shr_m].
  rewrite Z2Nat.id by exact Hk.
  assert (Hpk : 0 < 2 ^ (e' - e0)) by (apply pow2_pos; lia).
  pose proof (fexp_spec (Zdigits2 X + e0)) as He. fold e' in He.
  split; [split|].
  - apply Z.div_pos; lia.
  - apply Z.div_lt_upper_bound; [exact Hpk|].
    rewrite <- Z.pow_add_r by lia.
    assert (2 ^ Zdigits2 X <= 2 ^ (e' - e0 + 53))
      by (apply Z.pow_le_mono_r; lia).
    lia.
  - intros Hn. apply Z.div_le_lower_bound; [exact Hpk|].
    rewrite <- Z.pow_add_r by lia.
    replace (e' - e0 + 52) with (Zdigits2 X - 1) by lia. exact Hl.
Qed.

Lemma round_value (s : bool) (x : positive) (e0 : Z) :
  e0 <= -1074 ->
  SF2Z (binary_round_aux prec emax s (Zpos x) e0 loc_Exact)
  = cond_Zopp s (Z.min (round_Z e0 (Zpos x)) inf_Z).
Proof.
  intros He0.
  unfold binary_round_aux, shr_fexp, round_Z.
  change (shr_record_of_loc (Zpos x) loc_Exact) with (shr_exact (Zpos x)).
  set (e' := fexp prec emax (Zdigits2 (Zpos x) + e0)).
  pose proof (fexp_spec (Zdigits2 (Zpos x) + e0)) as He'. fold e' in He'.
  assert (Hk : 0 <= e' - e0) by lia.
  rewrite shr_shr_n by exact Hk.
  replace (e0 + (e' - e0)) with e' by lia.
  destruct (shifted_bounds (Zpos x) e0 ltac:(lia) Hk) as ((HM0 & HM) & HMl).
  fold e' in HM0, HM, HMl.
  set (mrs := shr_n (Z.to_nat (e' - e0)) (shr_exact (Zpos x))) in *.
  fold (shr_round mrs).
  pose proof (shr_round_bounds mrs) as Hq.
  set (q := shr_round mrs) in *.
  change (shr_record_of_loc q loc_Exact) with (shr_exact q).
  pose proof (fexp_spec (Zdigits2 q + e')) as Hf.
  assert (Hinf : inf_Z = 2 ^ (53 + (971 - -1074))) by reflexivity.
  assert (Hinf' : inf_Z = 2 ^ (52 + (972 - -1074))) by reflexivity.
  rewrite emin_spec.
  destruct (Z.eq_dec q 0) as [Hq0|Hq0].
  - (* underflow to zero *)
    rewrite Hq0 in *. cbn [Zdigits2] in *.
    destruct (fexp prec emax (0 + e') - e') as [|p|p] eqn:E; try lia;
      cbn [shr shr_m shr_exact]; destruct s; cbn [SF2Z cond_Zopp];
      rewrite Z.mul_0_l, Z.min_l; try reflexivity;
      rewrite Hinf; apply Z.lt_le_incl, pow2_pos; lia.
  - destruct (Z.eq_dec q (2 ^ 53)) as [Hq1|Hq1].
    + (* the mantissa overflows and is renormalised *)
      rewrite Hq1 in *.
      change (Zdigits2 (2 ^ 53)) with 54 in *.
      replace (fexp prec emax (54 + e') - e') with 1 by lia.
      change (shr (shr_exact (2 ^ 53)) e' 1)
        with (shr_exact (2 ^ 52), e' + 1).
      cbn [shr_m shr_exact].
      change (2 ^ 52) with (Zpos (Z.to_pos (2 ^ 52))) at 1.
      cbv iota beta.
      destruct (Z.leb_spec (e' + 1) (emax - prec)) as [Hle|Hgt];
        rewrite emax_spec, prec_spec in *; cbn [SF2Z]; f_equal.
      * rewrite emin_spec.
        rewrite Z.min_l.
        -- change (Zpos (Z.to_pos (2 ^ 52))) with (2 ^ 52).
           replace (e' + 1 - -1074) with (1 + (e' - -1074)) by lia.
           rewrite (Z.pow_add_r 2 1) by lia.
           change (2 ^ 53) with (2 ^ 52 * 2 ^ 1). ring.
        -- rewrite Hinf. change (2 ^ 53) with (2 ^ 52 * 2).
           rewrite <- Z.mul_assoc, <- (Z.pow_succ_r 2) by lia.
           apply Z.lt_le_incl, mul_pow2_lt; [|lia|lia].
           split; [|reflexivity]. apply Z.pow_nonneg; lia.
      * rewrite Z.min_r; [reflexivity|].
        rewrite Hinf. apply mul_pow2_ge; lia.
    + (* the rounded mantissa fits *)
      assert (Hq53 : 0 < q < 2 ^ 53) by lia.
      assert (Hdq : Zdigits2 q <= 53) by (apply Zdigits2_le; lia).
      destruct (fexp prec emax (Zdigits2 q + e') - e') as [|p|p] eqn:E;
        try lia; cbn [shr shr_m shr_exact].
      all: destruct q as [|qp|qp]; try lia.
      all: destruct (Z.leb_spec e' (emax - prec)) as [Hle|Hgt];
        rewrite emax_spec, prec_spec in *; cbn [SF2Z]; f_equal;
        rewrite ?emin_spec.
      all: try (rewrite Z.min_l; [reflexivity|];
                rewrite Hinf; apply Z.lt_le_incl, mul_pow2_lt; lia).
      all: rewrite Z.min_r; [reflexivity|];
        rewrite Hinf'; apply mul_pow2_ge; lia.
Qed.

Lemma round_Z_nonneg (e0 X : Z) : 0 < X -> e0 <= -1074 -> 0 <= round_Z e0 X.
Proof.
  intros HX He0. unfold round_Z.
  pose proof (fexp_spec (Zdigits2 X + e0)) as He'.
  set (e' := fexp prec emax (Zdigits2 X + e0)) in *.
  destruct (shifted_bounds X e0 HX ltac:(fold e'; lia)) as ((HM0 & _) & _).
  fold e' in HM0.
  pose proof (shr_round_bounds (shr_n (Z.to_nat (e' - e0)) (shr_exact X))).
  apply Z.mul_nonneg_nonneg; [lia|]. apply Z.pow_nonneg; lia.
Qed.

Lemma round_Z_mono (e0 X1 X2 : Z) :
  e0 <= -1074 -> 0 < X1 <= X2 -> round_Z e0 X1 <= round_Z e0 X2.
Proof.
  intros He0 HX. unfold round_Z.
  pose proof (Zdigits2_mono X1 X2 ltac:(lia) ltac:(lia)) as Hd.
  pose proof (fexp_spec (Zdigits2 X1 + e0)) as He1.
  pose proof (fexp_spec (Zdigits2 X2 + e0)) as He2.
  set (e1 := fexp prec emax (Zdigits2 X1 + e0)) in *.
  set (e2 := fexp prec emax (Zdigits2 X2 + e0)) in *.
  destruct (shifted_bounds X1 e0 ltac:(lia) ltac:(fold e1; lia))
    as ((HM1 & HM1u) & _).
  destruct (shifted_bounds X2 e0 ltac:(lia) ltac:(fold e2; lia))
    as ((HM2 & _) & HM2l).
  fold e1 in HM1, HM1u. fold e2 in HM2, HM2l.
  pose proof (shr_round_bounds (shr_n (Z.to_nat (e1 - e0)) (shr_exact X1)))
    as Hq1.
  pose proof (shr_round_bounds (shr_n (Z.to_nat (e2 - e0)) (shr_exact X2)))
    as Hq2.
  rewrite emin_spec.
  destruct (Z.eq_dec e1 e2) as [E|E].
  - rewrite <- E. apply Z.mul_le_mono_nonneg_r; [apply Z.pow_nonneg; lia|].
    apply shr_round_mono, shr_n_mono; unfold shr_code;
      cbn [shr_exact shr_m shr_r shr_s]; lia.
  - set (q1 := shr_round (shr_n (Z.to_nat (e1 - e0)) (shr_exact X1))) in *.
    set (q2 := shr_round (shr_n (Z.to_nat (e2 - e0)) (shr_exact X2))) in *.
    clearbody q1 q2.
    assert (q1 * 2 ^ (e1 - -1074) <= 2 ^ (53 + (e1 - -1074))).
    { rewrite Z.pow_add_r by lia.
      apply Z.mul_le_mono_nonneg_r; [apply Z.pow_nonneg; lia | lia]. }
    assert (2 ^ (52 + (e1 + 1 - -1074)) <= q2 * 2 ^ (e2 - -1074))
      by (apply mul_pow2_ge; lia).
    replace (52 + (e1 + 1 - -1074)) with (53 + (e1 - -1074)) in * by lia.
    lia.
Qed.

Lemma shr_n_add (a b : nat) (mrs : shr_record) :
  shr_n (a + b) mrs = shr_n a (shr_n b mrs).
Proof. apply Nat.iter_add. Qed.

(** The result of rounding does not depend on how far the mantissa has
    been shifted to the left. *)
Lemma round_rep (s : bool) (m m' : positive) (e e0 : Z) :
  e0 <= e -> e <= fexp prec emax (Zdigits2 (Zpos m) + e) ->
  Zpos m' = Zpos m * 2 ^ (e - e0) ->
  binary_round_aux prec emax s (Zpos m) e loc_Exact
  = binary_round_aux prec emax s (Zpos m') e0 loc_Exact.
Proof.
  intros He HH Hm'.
  unfold binary_round_aux, shr_fexp.
  change (shr_record_of_loc (Zpos m) loc_Exact) with (shr_exact (Zpos m)).
  change (shr_record_of_loc (Zpos m') loc_Exact) with (shr_exact (Zpos m')).
  rewrite Hm', Zdigits2_shift by lia.
  replace (Zdigits2 (Zpos m) + (e - e0) + e0)
    with (Zdigits2 (Zpos m) + e) by lia.
  set (e' := fexp prec emax (Zdigits2 (Zpos m) + e)) in *.
  rewrite (shr_shr_n (shr_exact (Zpos m)) e (e' - e)) by lia.
  rewrite (shr_shr_n (shr_exact (Zpos m * 2 ^ (e - e0))) e0 (e' - e0)) by lia.
  replace (e0 + (e' - e0)) with (e + (e' - e)) by lia.
  replace (Z.to_nat (e' - e0)) with (Z.to_nat (e' - e) + Z.to_nat (e - e0))%nat
    by lia.
  rewrite shr_n_add.
  pose proof (shr_n_exact (Z.to_nat (e - e0)) (Zpos m) ltac:(lia)) as Hex.
  rewrite Z2Nat.id in Hex by lia. rewrite Hex. reflexivity.
Qed.

Lemma round_value_rep (s : bool) (m : positive) (e e0 : Z) :
  e0 <= -1074 -> e0 <= e ->
  e <= fexp prec emax (Zdigits2 (Zpos m) + e) ->
  SF2Z (binary_round_aux prec emax s (Zpos m) e loc_Exact)
  = cond_Zopp s (Z.min (round_Z e0 (Zpos m * 2 ^ (e - e0))) inf_Z).
Proof.
  intros He0 He HH.
  assert (Hp : 0 < Zpos m * 2 ^ (e - e0))
    by (apply Z.mul_pos_pos; [lia | apply pow2_pos; lia]).
  destruct (Zpos m * 2 ^ (e - e0)) as [|m'|m'] eqn:E; try lia.
  rewrite (round_rep s m m' e e0 He HH (eq_sym E)).
  now apply round_value.
Qed.

(** Rounding leaves a number of the format as it is. *)
Lemma round_Z_canonical (m : positive) (e : Z) :
  canonical_mantissa prec emax m e = true ->
  round_Z (-1074) (Zpos m * 2 ^ (e - -1074)) = Zpos m * 2 ^ (e - -1074).
Proof.
  unfold canonical_mantissa. rewrite Z.eqb_eq. intros Hc.
  pose proof (fexp_spec (Zpos (digits2_pos m) + e)) as He.
  assert (Hemin : -1074 <= e) by lia.
  unfold round_Z. rewrite Zdigits2_shift by lia.
  change (Zdigits2 (Zpos m)) with (Zpos (digits2_pos m)).
  replace (Zpos (digits2_pos m) + (e - -1074) + -1074)
    with (Zpos (digits2_pos m) + e) by lia.
  rewrite Hc.
  pose proof (shr_n_exact (Z.to_nat (e - -1074)) (Zpos m) ltac:(lia)) as Hex.
  rewrite Z2Nat.id in Hex by lia. rewrite Hex.
  reflexivity.
Qed.

(** *** The order of the numbers is that of their values *)

Lemma valid_finite_bounds (s : bool) (m : positive) (e : Z) :
  valid_binary (S754_finite s m e) = true ->
  -1074 <= e <= 971 /\ Zpos m < 2 ^ 53 /\ (-1074 < e -> 2 ^ 52 <= Zpos m).
Proof.
  cbn [valid_binary]. unfold bounded, canonical_mantissa.
  rewrite andb_true_iff, Z.eqb_eq, Z.leb_le.
  rewrite fexp_spec, emax_spec, prec_spec. intros (Hc & Hb).
  pose proof (digits2_pos_bounds m) as (Hl & Hu).
  split; [lia|]. split.
  - assert (2 ^ Zpos (digits2_pos m) <= 2 ^ 53)
      by (apply Z.pow_le_mono_r; lia).
    lia.
  - intros He. replace (Zpos (digits2_pos m)) with 53 in Hl by lia.
    exact Hl.
Qed.

Lemma valid_finite_value (s : bool) (m : positive) (e : Z) :
  valid_binary (S754_finite s m e) = true ->
  0 < Zpos m * 2 ^ (e - -1074) < inf_Z.
Proof.
  intros H. destruct (valid_finite_bounds s m e H) as (He & Hm & _).
  split.
  - apply Z.mul_pos_pos; [lia | apply pow2_pos; lia].
  - change inf_Z with (2 ^ (53 + (971 - -1074))).
    apply mul_pow2_lt; lia.
Qed.

Lemma finite_compare (m1 m2 : positive) (e1 e2 : Z) :
  valid_binary (S754_finite false m1 e1) = true ->
  valid_binary (S754_finite false m2 e2) = true ->
  match e1 ?= e2 with
  | Lt => Lt
  | Gt => Gt
  | Eq => Pos.compare_cont Eq m1 m2
  end = (Zpos m1 * 2 ^ (e1 - -1074) ?= Zpos m2 * 2 ^ (e2 - -1074)).
Proof.
  intros H1 H2.
  destruct (valid_finite_bounds _ _ _ H1) as (He1 & Hm1 & Hl1).
  destruct (valid_finite_bounds _ _ _ H2) as (He2 & Hm2 & Hl2).
  destruct (Z.compare_spec e1 e2) as [E|E|E]; symmetry.
  - subst e2. change (Pos.compare_cont Eq m1 m2) with (Zpos m1 ?= Zpos m2).
    symmetry. apply Zmult_compare_compat_r.
    apply Z.lt_gt, pow2_pos. lia.
  - apply Z.compare_lt_iff.
    assert (Zpos m1 * 2 ^ (e1 - -1074) < 2 ^ (53 + (e1 - -1074)))
      by (apply mul_pow2_lt; lia).
    assert (2 ^ (52 + (e1 + 1 - -1074)) <= Zpos m2 * 2 ^ (e2 - -1074))
      by (apply mul_pow2_ge; lia).
    replace (52 + (e1 + 1 - -1074)) with (53 + (e1 - -1074)) in * by lia.
    lia.
  - apply Z.compare_gt_iff.
    assert (Zpos m2 * 2 ^ (e2 - -1074) < 2 ^ (53 + (e2 - -1074)))
      by (apply mul_pow2_lt; lia).
    assert (2 ^ (52 + (e2 + 1 - -1074)) <= Zpos m1 * 2 ^ (e1 - -1074))
      by (apply mul_pow2_ge; lia).
    replace (52 + (e2 + 1 - -1074)) with (53 + (e2 - -1074)) in * by lia.
    lia.
Qed.

Lemma inf_Z_pos : 0 < inf_Z.
Proof. apply pow2_pos. vm_compute. discriminate. Qed.

Lemma SF2Z_finite (s : bool) (m : positive) (e : Z) :
  SF2Z (S754_finite s m e) = cond_Zopp s (Zpos m * 2 ^ (e - -1074)).
Proof. reflexivity. Qed.

Lemma SFcompare_SF2Z (x y : spec_float) :
  valid_binary x = true -> valid_binary y = true ->
  x <> S754_nan -> y <> S754_nan ->
  SFcompare x y = Some (SF2Z x ?= SF2Z y).
Proof.
  intros Hx Hy Nx Ny. pose proof inf_Z_pos as HI.
  destruct x as [sx|sx| |sx mx ex], y as [sy|sy| |sy my ey];
    try congruence; rewrite ?SF2Z_finite; cbn [SFcompare SF2Z]; f_equal;
    try pose proof (valid_finite_value _ _ _ Hx) as Vx;
    try pose proof (valid_finite_value _ _ _ Hy) as Vy.
  all: try (destruct sx); try (destruct sy); cbn [cond_Zopp]; symmetry;
    try (apply Z.compare_eq_iff; lia);
    try (apply Z.compare_lt_iff; lia);
    try (apply Z.compare_gt_iff; lia).
  - rewrite Z.compare_opp, <- (finite_compare my mx ey ex Hy Hx).
    rewrite (Z.compare_antisym ey ex).
    destruct (ey ?= ex); cbn [CompOpp]; try reflexivity.
    exact (eq_sym (Pos.compare_cont_antisym mx my Eq)).
  - now rewrite <- (finite_compare mx my ex ey Hx Hy).
Qed.

Lemma SFleb_SF2Z (x y : spec_float) :
  valid_binary x = true -> valid_binary y = true ->
  x <> S754_nan -> y <> S754_nan ->
  SFleb x y = true <-> SF2Z x <= SF2Z y.
Proof.
  intros Hx Hy Nx Ny. unfold SFleb.
  rewrite (SFcompare_SF2Z x y Hx Hy Nx Ny).
  destruct (Z.compare_spec (SF2Z x) (SF2Z y)); split; intros; 
    first [reflexivity | lia | discriminate].
Qed.

Lemma clamp_round_pos (e0 X : Z) :
  0 < X -> clamp_round e0 X = Z.min (round_Z e0 X) inf_Z.
Proof. destruct X; intros; first [lia | reflexivity]. Qed.

Lemma clamp_round_neg (e0 X : Z) :
  0 < X -> clamp_round e0 (- X) = - Z.min (round_Z e0 X) inf_Z.
Proof. destruct X; intros; first [lia | reflexivity]. Qed.

Lemma clamp_round_cond (e0 X : Z) (s : bool) :
  0 < X ->
  clamp_round e0 (cond_Zopp s X) = cond_Zopp s (Z.min (round_Z e0 X) inf_Z).
Proof.
  intros H. destruct s; cbn [cond_Zopp];
    [now apply clamp_round_neg | now apply clamp_round_pos].
Qed.

Lemma clamp_round_mono (e0 X Y : Z) :
  e0 <= -1074 -> X <= Y -> clamp_round e0 X <= clamp_round e0 Y.
Proof.
  intros He0 H. pose proof inf_Z_pos as HI.
  assert (Hnn : forall p, 0 <= Z.min (round_Z e0 (Zpos p)) inf_Z).
  { intros p. pose proof (round_Z_nonneg e0 (Zpos p) ltac:(lia) He0). lia. }
  destruct X as [|x|x], Y as [|y|y]; cbn [clamp_round]; try lia;
    try (pose proof (Hnn x)); try (pose proof (Hnn y)); try lia.
  - pose proof (round_Z_mono e0 (Zpos x) (Zpos y) He0 ltac:(lia)). lia.
  - pose proof (round_Z_mono e0 (Zpos y) (Zpos x) He0 ltac:(lia)). lia.
Qed.

Lemma Pos_iter_xO (m d : positive) :
  Zpos (Pos.iter xO m d) = Zpos m * 2 ^ Zpos d.
Proof.
  induction d as [|d IH] using Pos.peano_ind.
  - cbn [Pos.iter]. lia.
  - rewrite Pos.iter_succ, Pos2Z.inj_xO, IH, Pos2Z.inj_succ, Z.pow_succ_r by lia.
    lia.
Qed.

Lemma shl_align_value (m : positive) (e e' : Z) :
  Zpos (fst (shl_align m e e')) * 2 ^ (snd (shl_align m e e') - Z.min e e')
  = Zpos m * 2 ^ (e - Z.min e e')
  /\ snd (shl_align m e e') = Z.min e e'.
Proof.
  unfold shl_align. destruct (e' - e) as [|d|d] eqn:E; cbn [fst snd].
  - replace (Z.min e e') with e by lia. split; reflexivity.
  - replace (Z.min e e') with e by lia. split; reflexivity.
  - replace (Z.min e e') with e' by lia.
    rewrite Pos_iter_xO, Z.sub_diag, Z.mul_1_r.
    replace (e - e') with (Zpos d) by lia. split; reflexivity.
Qed.

Lemma shl_align_fst (m : positive) (e e' : Z) :
  e' <= e -> Zpos (fst (shl_align m e e')) = Zpos m * 2 ^ (e - e').
Proof.
  intros H. destruct (shl_align_value m e e') as (Hv & Hs).
  rewrite Hs in Hv. replace (Z.min e e') with e' in Hv by lia.
  now rewrite Z.sub_diag, Z.mul_1_r in Hv.
Qed.

Lemma binary_round_value (s : bool) (m : positive) (e : Z) :
  -1074 <= e ->
  SF2Z (binary_round prec emax s m e)
  = cond_Zopp s (Z.min (round_Z (-1074) (Zpos m * 2 ^ (e - -1074))) inf_Z).
Proof.
  intros He. unfold binary_round.
  pose proof (fexp_spec (Zpos (digits2_pos m) + e)) as Hf.
  set (f := fexp prec emax (Zpos (digits2_pos m) + e)) in *.
  destruct (shl_align_value m e f) as (Hv & Hs).
  destruct (shl_align m e f) as [mz ez]. cbn [fst snd] in *.
  assert (Hd : Zdigits2 (Zpos mz) + ez = Zpos (digits2_pos m) + e).
  { rewrite <- (Z.mul_1_r (Zpos mz)), <- (Z.pow_0_r 2).
    replace 0 with (ez - Z.min e f) at 1 by lia.
    rewrite Hv, Zdigits2_shift by lia.
    change (Zdigits2 (Zpos m)) with (Zpos (digits2_pos m)). lia. }
  rewrite (round_value_rep s mz ez (-1074)); [|lia|lia|].
  - do 3 f_equal.
    replace (Zpos mz) with (Zpos mz * 2 ^ (ez - Z.min e f))
      by (replace (ez - Z.min e f) with 0 by lia; lia).
    rewrite Hv, <- !Z.mul_assoc, <- !Z.pow_add_r by lia.
    do 2 f_equal. lia.
  - rewrite Hd. fold f. lia.
Qed.

Lemma SF2Z_range (x : spec_float) :
  valid_binary x = true -> - inf_Z <= SF2Z x <= inf_Z.
Proof.
  intros H. pose proof inf_Z_pos.
  destruct x as [s|s| |s m e]; rewrite ?SF2Z_finite; cbn [SF2Z];
    try (pose proof (valid_finite_value _ _ _ H));
    try destruct s; cbn [cond_Zopp]; lia.
Qed.

Lemma SF2Z_canonical (x : spec_float) :
  valid_binary x = true -> finite_or_zero x = true ->
  clamp_round (-1074) (SF2Z x) = SF2Z x.
Proof.
  intros H Hf. destruct x as [s|s| |s m e]; try discriminate; [reflexivity|].
  rewrite SF2Z_finite.
  pose proof (valid_finite_value _ _ _ H) as Hv.
  rewrite clamp_round_cond by lia. f_equal.
  rewrite round_Z_canonical.
  - lia.
  - cbn [valid_binary] in H. unfold bounded in H.
    now apply andb_prop in H as (H & _).
Qed.

(** The sum of two numbers is the rounding of their exact sum. *)
Lemma SFadd_value (x y : spec_float) :
  valid_binary x = true -> valid_binary y = true ->
  finite_or_zero x = true -> finite_or_zero y = true ->
  SF2Z (SFadd prec emax x y) = clamp_round (-1074) (SF2Z x + SF2Z y).
Proof.
  intros Hx Hy Fx Fy.
  destruct x as [sx|sx| |sx mx ex], y as [sy|sy| |sy my ey];
    try discriminate.
  - destruct sx, sy; reflexivity.
  - cbn [SFadd]. change (SF2Z (S754_zero sx)) with 0. rewrite Z.add_0_l.
    symmetry. now apply SF2Z_canonical.
  - cbn [SFadd]. change (SF2Z (S754_zero sy)) with 0. rewrite Z.add_0_r.
    symmetry. now apply SF2Z_canonical.
  - cbn [SFadd].
    destruct (valid_finite_bounds _ _ _ Hx) as (Hex & _).
    destruct (valid_finite_bounds _ _ _ Hy) as (Hey & _).
    set (ez := Z.min ex ey).
    rewrite !shl_align_fst by lia.
    set (vx := Zpos mx * 2 ^ (ex - ez)). set (vy := Zpos my * 2 ^ (ey - ez)).
    assert (Hsum : SF2Z (S754_finite sx mx ex) + SF2Z (S754_finite sy my ey)
                   = (cond_Zopp sx vx + cond_Zopp sy vy) * 2 ^ (ez - -1074)).
    { rewrite !SF2Z_finite. unfold vx, vy.
      replace (ex - -1074) with (ex - ez + (ez - -1074)) by lia.
      replace (ey - -1074) with (ey - ez + (ez - -1074)) by lia.
      rewrite !Z.pow_add_r by lia.
      destruct sx, sy; cbn [cond_Zopp]; ring. }
    rewrite Hsum.
    assert (Hp : 0 < 2 ^ (ez - -1074)) by (apply pow2_pos; lia).
    destruct (cond_Zopp sx vx + cond_Zopp sy vy) as [|m|m];
      cbn [binary_normalize].
    + reflexivity.
    + rewrite binary_round_value by lia. cbn [cond_Zopp].
      rewrite clamp_round_pos by lia. reflexivity.
    + rewrite binary_round_value by lia. cbn [cond_Zopp].
      replace (Zneg m * 2 ^ (ez - -1074))
        with (- (Zpos m * 2 ^ (ez - -1074))) by lia.
      rewrite clamp_round_neg by lia. reflexivity.
Qed.

(** The product of two numbers is the rounding of their exact product. *)
Lemma SFmul_value (x y : spec_float) :
  valid_binary x = true -> valid_binary y = true ->
  finite_or_zero x = true -> finite_or_zero y = true ->
  SF2Z (SFmul prec emax x y) = clamp_round (-2148) (SF2Z x * SF2Z y).
Proof.
  intros Hx Hy Fx Fy.
  destruct x as [sx|sx| |sx mx ex], y as [sy|sy| |sy my ey];
    try discriminate; cbn [SFmul].
  - reflexivity.
  - reflexivity.
  - change (SF2Z (S754_zero sy)) with 0. now rewrite Z.mul_0_r.
  - destruct (valid_finite_bounds _ _ _ Hx) as (Hex & Hmx & Hlx).
    destruct (valid_finite_bounds _ _ _ Hy) as (Hey & Hmy & Hly).
    rewrite (round_value_rep _ _ _ (-2148)); [|lia|lia|].
    + rewrite !SF2Z_finite.
      replace (cond_Zopp sx (Zpos mx * 2 ^ (ex - -1074))
               * cond_Zopp sy (Zpos my * 2 ^ (ey - -1074)))
        with (cond_Zopp (xorb sx sy)
                (Zpos (mx * my) * 2 ^ (ex + ey - -2148))).
      * rewrite clamp_round_cond; [reflexivity|].
        apply Z.mul_pos_pos; [lia | apply pow2_pos; lia].
      * replace (ex + ey - -2148) with (ex - -1074 + (ey - -1074)) by lia.
        rewrite Z.pow_add_r, Pos2Z.inj_mul by lia.
        destruct sx, sy; cbn [xorb cond_Zopp]; ring.
    + rewrite fexp_spec.
      destruct (Z.eq_dec ex (-1074)) as [Ex|Ex];
        [destruct (Z.eq_dec ey (-1074)) as [Ey|Ey]; [lia|]|].
      * assert (53 <= Zdigits2 (Zpos (mx * my))); [|lia].
        apply Zdigits2_ge; [lia|]. rewrite Pos2Z.inj_mul.
        specialize (Hly ltac:(lia)). change (53 - 1) with 52. nia.
      * assert (53 <= Zdigits2 (Zpos (mx * my))); [|lia].
        apply Zdigits2_ge; [lia|]. rewrite Pos2Z.inj_mul.
        specialize (Hlx ltac:(lia)). change (53 - 1) with 52. nia.
Qed.

Lemma SFleb_not_nan (x y : spec_float) :
  SFleb x y = true -> x <> S754_nan /\ y <> S754_nan.
Proof.
  unfold SFleb. destruct x, y; cbn; intros H; split; congruence.
Qed.

Ltac finite_facts :=
  repeat match goal with
         | H : valid_binary (S754_finite ?s ?m ?e) = true |- _ =>
             lazymatch goal with
             | _ : 0 < Zpos m * 2 ^ (e - -1074) < inf_Z |- _ => fail
             | _ => pose proof (valid_finite_value s m e H)
             end
         end.

Lemma SFmul_mono (a b c : spec_float) :
  valid_binary a = true -> valid_binary b = true -> valid_binary c = true ->
  valid_binary (SFmul prec emax a c) = true ->
  valid_binary (SFmul prec emax b c) = true ->
  SFleb a b = true -> SFleb (S754_zero false) c = true ->
  SFmul prec emax a c <> S754_nan -> SFmul prec emax b c <> S754_nan ->
  SFleb (SFmul prec emax a c) (SFmul prec emax b c) = true.
Proof.
  intros Ha Hb Hc Hac Hbc Hab H0c Nac Nbc.
  destruct (SFleb_not_nan _ _ Hab) as (Na & Nb).
  destruct (SFleb_not_nan _ _ H0c) as (_ & Nc).
  apply (SFleb_SF2Z a b Ha Hb Na Nb) in Hab.
  apply (SFleb_SF2Z (S754_zero false) c eq_refl Hc ltac:(discriminate) Nc)
    in H0c.
  change (SF2Z (S754_zero false)) with 0 in H0c.
  apply (SFleb_SF2Z _ _ Hac Hbc Nac Nbc).
  pose proof (SF2Z_range _ Hac) as Rac.
  pose proof (SF2Z_range _ Hbc) as Rbc.
  pose proof inf_Z_pos as HI.
  destruct (finite_or_zero a && finite_or_zero b && finite_or_zero c) eqn:F.
  - apply andb_prop in F as (F & Fc). apply andb_prop in F as (Fa & Fb).
    rewrite !SFmul_value by assumption.
    apply clamp_round_mono; [lia|].
    now apply Z.mul_le_mono_nonneg_r.
  - destruct a as [sa|sa| |sa ma ea], b as [sb|sb| |sb mb eb],
      c as [sc|sc| |sc mc ec]; try congruence; try discriminate F;
      finite_facts; rewrite ?SF2Z_finite in *;
      cbn [SFmul] in *; try congruence;
      try destruct sa; try destruct sb; try destruct sc;
      cbn [SF2Z cond_Zopp xorb] in *; lia.
Qed.

Lemma SFadd_mono (a b c : spec_float) :
  valid_binary a = true -> valid_binary b = true -> valid_binary c = true ->
  valid_binary (SFadd prec emax a c) = true ->
  valid_binary (SFadd prec emax b c) = true ->
  SFleb a b = true -> c <> S754_nan ->
  SFadd prec emax a c <> S754_nan -> SFadd prec emax b c <> S754_nan ->
  SFleb (SFadd prec emax a c) (SFadd prec emax b c) = true.
Proof.
  intros Ha Hb Hc Hac Hbc Hab Nc Nac Nbc.
  destruct (SFleb_not_nan _ _ Hab) as (Na & Nb).
  apply (SFleb_SF2Z a b Ha Hb Na Nb) in Hab.
  apply (SFleb_SF2Z _ _ Hac Hbc Nac Nbc).
  pose proof (SF2Z_range _ Hac) as Rac.
  pose proof (SF2Z_range _ Hbc) as Rbc.
  pose proof inf_Z_pos as HI.
  destruct (finite_or_zero a && finite_or_zero b && finite_or_zero c) eqn:F.
  - apply andb_prop in F as (F & Fc). apply andb_prop in F as (Fa & Fb).
    rewrite !SFadd_value by assumption.
    apply clamp_round_mono; lia.
  - destruct a as [sa|sa| |sa ma ea], b as [sb|sb| |sb mb eb],
      c as [sc|sc| |sc mc ec]; try congruence; try discriminate F;
      finite_facts; rewrite ?SF2Z_finite in *;
      cbn [SFadd] in *; try congruence;
      try destruct sa; try destruct sb; try destruct sc;
      cbn [SF2Z cond_Zopp xorb] in *; try congruence; lia.
Qed.

Lemma SFmul_comm (x y : spec_float) :
  SFmul prec emax x y = SFmul prec emax y x.
Proof.
  destruct x as [sx|sx| |sx mx ex], y as [sy|sy| |sy my ey]; cbn [SFmul];
    rewrite ?(xorb_comm sx sy); try reflexivity.
  now rewrite Pos.mul_comm, Z.add_comm.
Qed.

Lemma SFadd_comm_nan (x y : spec_float) :
  SFadd prec emax x y <> S754_nan -> x <> S754_nan /\ y <> S754_nan.
Proof. destruct x, y; cbn [SFadd]; intros H; split; congruence. Qed.

Lemma SFmul_nan (x y : spec_float) :
  SFmul prec emax x y <> S754_nan -> x <> S754_nan /\ y <> S754_nan.
Proof. destruct x, y; cbn [SFmul]; intros H; split; congruence. Qed.

Lemma SFcompare_refl (x : spec_float) :
  x <> S754_nan -> SFcompare x x = Some Eq.
Proof.
  destruct x as [s|s| |s m e]; cbn; intros H; try congruence.
  - now destruct s.
  - rewrite Z.compare_refl.
    change (Pos.compare_cont Eq m m) with (Pos.compare m m).
    rewrite Pos.compare_refl. now destruct s.
Qed.

Lemma is_nan_spec (x : float) :
  is_nan x = false <-> Prim2SF x <> S754_nan.
Proof.
  unfold is_nan. rewrite negb_false_iff, eqb_spec. unfold SFeqb. split.
  - intros H E. rewrite E in H. discriminate H.
  - intros H. now rewrite SFcompare_refl.
Qed.

Lemma float_mul_not_nan (x y : float) :
  is_nan (x * y) = false -> is_nan x = false /\ is_nan y = false.
Proof.
  rewrite !is_nan_spec, mul_spec. apply SFmul_nan.
Qed.

Lemma float_add_not_nan (x y : float) :
  is_nan (x + y) = false -> is_nan x = false /\ is_nan y = false.
Proof.
  rewrite !is_nan_spec, add_spec. apply SFadd_comm_nan.
Qed.

Lemma float_mul_comm (x y : float) : (x * y = y * x)%float.
Proof.
  apply Prim2SF_inj. rewrite !mul_spec. apply SFmul_comm.
Qed.

(** Rounding is monotone: a product by a number that is not negative keeps
    the order. *)
Lemma float_mul_mono (a b c : float) :
  (a <=? b)%float = true -> (0 <=? c)%float = true ->
  is_nan (a * c) = false -> is_nan (b * c) = false ->
  (a * c <=? b * c)%float = true.
Proof.
  rewrite !leb_spec, !is_nan_spec, !mul_spec.
  intros Hab Hc Nac Nbc.
  apply SFmul_mono; try apply Prim2SF_valid; try assumption.
  - rewrite <- mul_spec. apply Prim2SF_valid.
  - rewrite <- mul_spec. apply Prim2SF_valid.
Qed.

(** A sum keeps the order. *)
Lemma float_add_mono (a b c : float) :
  (a <=? b)%float = true ->
  is_nan (a + c) = false -> is_nan (b + c) = false ->
  (a + c <=? b + c)%float = true.
Proof.
  rewrite !leb_spec, !is_nan_spec, !add_spec.
  intros Hab Nac Nbc.
  apply SFadd_mono; try apply Prim2SF_valid; try assumption.
  - rewrite <- add_spec. apply Prim2SF_valid.
  - rewrite <- add_spec. apply Prim2SF_valid.
  - now apply SFadd_comm_nan in Nac.
Qed.

End Rounding.

(** ** binary64: the total torque keeps the order of the payloads *)

Section PayloadOrder.

Lemma float_ltb_le (x y : float) :
  PrimFloat.ltb x y = true -> PrimFloat.leb x y = true.
Proof.
  rewrite ltb_spec, leb_spec. unfold SFltb, SFleb.
  destruct (SFcompare (Prim2SF x) (Prim2SF y)) as [[| |]|]; intros H;
    first [reflexivity | discriminate H].
Qed.

Lemma fold_left_add_not_nan (ts : list float) (x : float) :
  is_nan (fold_left PrimFloat.add ts x) = false -> is_nan x = false.
Proof.
  revert x. induction ts as [|t ts IH]; intros x H; [exact H|].
  cbn [fold_left] in H. apply IH in H. now apply float_add_not_nan in H.
Qed.

(** A sum from the left keeps the order of its first term. *)
Lemma fold_left_add_mono (ts : list float) (x y : float) :
  PrimFloat.leb x y = true ->
  is_nan (fold_left PrimFloat.add ts x) = false ->
  is_nan (fold_left PrimFloat.add ts y) = false ->
  PrimFloat.leb (fold_left PrimFloat.add ts x) (fold_left PrimFloat.add ts y)
  = true.
Proof.
  revert x y. induction ts as [|t ts IH]; intros x y Hxy Hx Hy;
    [exact Hxy|].
  cbn [fold_left] in *. apply IH; [|exact Hx|exact Hy].
  apply float_add_mono; [exact Hxy| |].
  - exact (fold_left_add_not_nan ts _ Hx).
  - exact (fold_left_add_not_nan ts _ Hy).
Qed.

(** Every block adds the contribution of the payload first. *)
Lemma summation_order_payload (j : nat) :
  j < 6 ->
  exists rest,
    summation_order j = PayloadTerm :: rest /\
    forall t, In t rest -> t <> PayloadTerm.
Proof.
  intros Hj.
  do 6 (destruct j as [|j];
        [eexists; split; [reflexivity|];
         intros t Ht; cbn in Ht;
         repeat (destruct Ht as [<-|Ht]; [discriminate|]); contradiction
        |]).
  lia.
Qed.

Lemma T_total_payload_mono (d1 d2 : InputData float) (j : nat) :
  same_arm d1 d2 -> j < 6 ->
  PrimFloat.leb (m_payload d1) (m_payload d2) = true ->
  PrimFloat.leb 0 (spec_S d1 5 - pivot d1 j)%num = true ->
  is_nan (T_total (joint_result d1 j)) = false ->
  is_nan (T_total (joint_result d2 j)) = false ->
  PrimFloat.leb (T_total (joint_result d1 j)) (T_total (joint_result d2 j))
  = true.
Proof.
  intros Hsame Hj Hp Harm.
  cbn [joint_result T_total].
  destruct (summation_order_payload j Hj) as (rest & -> & Hrest).
  cbn [map sum_left].
  assert (Hmap : map (spec_term d2 j) rest = map (spec_term d1 j) rest).
  { apply map_ext_in. intros t Ht. symmetry.
    apply spec_term_same_arm; [exact Hsame | now apply Hrest]. }
  rewrite Hmap.
  assert (Harm2 : (spec_S d2 5 - pivot d2 j)%num = (spec_S d1 5 - pivot d1 j)%num).
  { destruct Hsame as (_ & Hls & Hms).
    unfold pivot, motor. now rewrite (spec_S_same_arm d1 d2 5 Hls), Hms. }
  cbn [spec_term]. rewrite Harm2.
  set (arm := (spec_S d1 5 - pivot d1 j)%num) in *.
  unfold spec_W_payload.
  change (@add float JsNumber_float) with PrimFloat.add.
  change (@mul float JsNumber_float) with PrimFloat.mul.
  change (@lit_9_80665 float JsNumber_float) with 9.80665%float.
  intros N1 N2.
  pose proof (fold_left_add_not_nan _ _ N1) as Np1.
  pose proof (fold_left_add_not_nan _ _ N2) as Np2.
  apply fold_left_add_mono; [|exact N1|exact N2].
  destruct (float_mul_not_nan _ _ Np1) as (Nw1 & _).
  destruct (float_mul_not_nan _ _ Np2) as (Nw2 & _).
  apply float_mul_mono; [|exact Harm|exact Np1|exact Np2].
  rewrite (float_mul_comm 9.80665 (m_payload d1)) in *.
  rewrite (float_mul_comm 9.80665 (m_payload d2)) in *.
  apply float_mul_mono; [exact Hp|reflexivity|exact Nw1|exact Nw2].
Qed.

End PayloadOrder.

(** * The claims of the specification *)

(** C1. On an input that passes validation, the total torque returned for
    joint [j] is the sum of the contributions that the specification
    lists: the payload, every link [k >= j] and every motor [k > j]. In
    every arithmetic it is these contributions, each once, added from the
    left in the order of [summation_order]; in exact arithmetic, where the
    order does not matter, it is [spec_torque]. *)
Theorem torque_total_is_sum_of_contributions :
  (forall (num : Type) (N : JsNumber num) (d : InputData num) (j : nat),
     passes_validation d -> j < 6 ->
     exists rs r,
       performCalculations d = Results rs /\
       nth_error rs (5 - j) = Some r /\
       T_total r = sum_left (map (spec_term d j) (summation_order j)) /\
       Permutation (summation_order j) (spec_terms j)) /\
  (forall (d : InputData Q) (j : nat),
     passes_validation d -> j < 6 ->
     exists rs r,
       performCalculations d = Results rs /\
       nth_error rs (5 - j) = Some r /\
       (T_total r == spec_torque d j)%Q).
Proof.
  split.
  - intros num N d j H Hj.
    exists (map (joint_result d) [5; 4; 3; 2; 1; 0]), (joint_result d j).
    split; [apply (performCalculations_valid d H)|].
    split; [now apply nth_error_joint_results|].
    split; [reflexivity | now apply summation_order_permutation].
  - intros d j H Hj.
    exists (map (joint_result d) [5; 4; 3; 2; 1; 0]), (joint_result d j).
    split; [apply (performCalculations_valid d H)|].
    split; [now apply nth_error_joint_results|].
    now apply T_total_spec_torque.
Qed.

Lemma torque_total_is_sum_of_contributions_witness :
  (exists rs r,
     performCalculations dummy_float = Results rs /\
     nth_error rs (5 - 3) = Some r /\
     T_total r = sum_left (map (spec_term dummy_float 3) (summation_order 3)) /\
     Permutation (summation_order 3) (spec_terms 3)) /\
  (exists rs r,
     performCalculations dummy_Q = Results rs /\
     nth_error rs (5 - 3) = Some r /\
     (T_total r == spec_torque dummy_Q 3)%Q).
Proof.
  assert (Hf : passes_validation dummy_float) by prove_valid.
  assert (Hq : passes_validation dummy_Q) by prove_valid.
  assert (H3 : 3 < 6) by lia.
  split.
  - exact (proj1 torque_total_is_sum_of_contributions
             float JsNumber_float dummy_float 3 Hf H3).
  - exact (proj2 torque_total_is_sum_of_contributions dummy_Q 3 Hq H3).
Defined.

(** C2. An input that passes validation gets a list of exactly six
    results, and the result at position [p] of the list is the result of
    joint [5 - p]: joint 5 (motor 6) comes first and joint 0 (motor 1)
    last. *)
Theorem six_results_end_effector_first {num : Type} {N : JsNumber num}
  (d : InputData num) :
  passes_validation d ->
  exists rs,
    performCalculations d = Results rs /\
    List.length rs = 6 /\
    forall p, p < 6 -> nth_error rs p = Some (joint_result d (5 - p)).
Proof.
  intros H. eexists. split; [apply (performCalculations_valid d H)|].
  split; [reflexivity|]. apply nth_error_results_position.
Qed.

Lemma six_results_end_effector_first_witness :
  passes_validation dummy_float /\
  exists rs,
    performCalculations dummy_float = Results rs /\
    List.length rs = 6 /\
    forall p, p < 6 -> nth_error rs p = Some (joint_result dummy_float (5 - p)).
Proof.
  assert (H : passes_validation dummy_float) by prove_valid.
  split; [exact H | exact (six_results_end_effector_first dummy_float H)].
Defined.

(** C3, as the function has it. Validation is fail-fast in the order
    payload mass, density, number of links, number of motors, then for each
    index the length, radius, mass, body length, pivot position, rpm, gear
    ratio and safety factor. A binary64 input none of whose fields is NaN
    and which does not meet at least one constraint gets an error and no
    results; the error is that of the first constraint, in that order, that
    the input does not meet, and no other check has that message. *)
Theorem validation_fail_fast (d : InputData float) :
  nan_free d ->
  (exists c, In c validation_order /\ meets d c = false) ->
  exists pre c post,
    validation_order = pre ++ c :: post /\
    Forall (fun c' => meets d c' = true) pre /\
    meets d c = false /\
    performCalculations d = ErrorObject (message c) /\
    forall c', In c' validation_order -> message c' = message c -> c' = c.
Proof.
  intros Hnan Hex.
  destruct (performCalculations_first_unmet d (nan_free_decisive d Hnan) Hex)
    as (pre & c & post & Hsplit & Hpre & Hc & Hrun).
  exists pre, c, post. repeat split; try assumption.
  intros c' Hc'. apply message_names_check; [|exact Hc'].
  rewrite Hsplit. apply in_elt.
Qed.

Lemma validation_fail_fast_witness :
  exists pre c post,
    validation_order = pre ++ c :: post /\
    Forall (fun c' => meets (with_safetyFactor dummy_float 2 0.9%float) c'
                      = true) pre /\
    meets (with_safetyFactor dummy_float 2 0.9%float) c = false /\
    performCalculations (with_safetyFactor dummy_float 2 0.9%float)
    = ErrorObject (message c) /\
    forall c', In c' validation_order -> message c' = message c -> c' = c.
Proof.
  apply (validation_fail_fast (with_safetyFactor dummy_float 2 0.9%float)).
  - prove_nan_free.
  - exists (MotorSafetyFactor 2). split.
    + unfold validation_order; cbn; tauto.
    + vm_compute; reflexivity.
Defined.

(** C3, as the specification states it, fails on NaN. The sample arm with
    a payload mass of NaN does not meet [payloadMass >= 0], and no test of
    the function fires on it: the function returns six results. *)
Lemma validation_fail_fast_counterexample :
  In PayloadMass validation_order /\
  meets (with_payload dummy_float nan) PayloadMass = false /\
  violated (with_payload dummy_float nan) PayloadMass = false /\
  exists rs,
    performCalculations (with_payload dummy_float nan) = Results rs /\
    List.length rs = 6.
Proof.
  split; [cbn; tauto|].
  split; [vm_compute; reflexivity|].
  split; [vm_compute; reflexivity|].
  eexists. split; [vm_compute; reflexivity | reflexivity].
Qed.

(** C4. With five links, and a payload mass and a density that pass their
    checks, the function returns an error whose message contains
    "6 links". When the safety factor of motor [i] is below 1 (0.9, say)
    and no earlier check fails, the function returns an error whose message
    contains "safety factor" and names motor [i + 1]. *)
Theorem rejection_messages {num : Type} {N : JsNumber num} :
  (forall d : InputData num,
     violated d PayloadMass = false ->
     violated d LinkDensity = false ->
     List.length (links d) = 5 ->
     exists msg,
       performCalculations d = ErrorObject msg /\
       contains "6 links" msg = true) /\
  (forall (d : InputData num) (i : nat) (pre post : list Check),
     validation_order = pre ++ MotorSafetyFactor i :: post ->
     Forall (fun c => violated d c = false) pre ->
     (safetyFactor (motor d i) <? lit_1)%num = true ->
     exists msg,
       performCalculations d = ErrorObject msg /\
       contains "safety factor" msg = true /\
       contains ("Motor " ++ show (i + 1)) msg = true).
Proof.
  split.
  - intros d Hp Hrho Hls. exists (message LinkCount). split; [|reflexivity].
    apply performCalculations_rejects
      with (pre := [PayloadMass; LinkDensity])
           (post := MotorCount :: flat_map index_checks (seq 0 6)).
    + reflexivity.
    + repeat constructor; assumption.
    + cbn. now rewrite Hls.
  - intros d i pre post Hsplit Hpre Hsf.
    exists (message (MotorSafetyFactor i)). split.
    + now apply performCalculations_rejects with (pre := pre) (post := post).
    + apply message_safety_factor. rewrite Hsplit.
      apply in_elt.
Qed.

Lemma rejection_messages_witness :
  (violated (without_last_link dummy_float) PayloadMass = false /\
   violated (without_last_link dummy_float) LinkDensity = false /\
   List.length (links (without_last_link dummy_float)) = 5 /\
   exists msg,
     performCalculations (without_last_link dummy_float) = ErrorObject msg /\
     contains "6 links" msg = true) /\
  (safetyFactor (motor (with_safetyFactor dummy_float 2 0.9%float) 2)
   = 0.9%float /\
   exists msg,
     performCalculations (with_safetyFactor dummy_float 2 0.9%float)
     = ErrorObject msg /\
     contains "safety factor" msg = true /\
     contains "Motor 3" msg = true).
Proof.
  split.
  - repeat (split; [reflexivity|]).
    apply (proj1 rejection_messages (without_last_link dummy_float));
      reflexivity.
  - split; [reflexivity|].
    apply (proj2 rejection_messages (with_safetyFactor dummy_float 2 0.9%float)
             2 (firstn 27 validation_order) (skipn 28 validation_order)).
    + reflexivity.
    + repeat constructor.
    + reflexivity.
Defined.

(** C5. On an input that passes validation the function returns results,
    and for every joint [j] the torque before gearing is the total torque
    divided by the gear ratio of the joint, or 0 when that gear ratio is 0,
    and the power is the torque before gearing times the rpm of the joint
    times 1000 divided by 9550, or 0 when that rpm is 0. *)
Theorem gearing_and_power {num : Type} {N : JsNumber num}
  (d : InputData num) :
  passes_validation d ->
  exists rs,
    performCalculations d = Results rs /\
    forall j, j < 6 ->
      exists r,
        nth_error rs (5 - j) = Some r /\
        T_before r
        = (if gearRatio (motor d j) !== lit_0
           then T_total r / gearRatio (motor d j)
           else lit_0)%num /\
        P r
        = (if rpm (motor d j) !== lit_0
           then T_before r * rpm (motor d j) * lit_1000 / lit_9550
           else lit_0)%num.
Proof.
  intros H. eexists. split; [apply (performCalculations_valid d H)|].
  intros j Hj. exists (joint_result d j).
  split; [now apply nth_error_joint_results|].
  split; reflexivity.
Qed.

Lemma gearing_and_power_witness :
  passes_validation (tip_motor_float 1) /\
  exists rs,
    performCalculations (tip_motor_float 1) = Results rs /\
    forall j, j < 6 ->
      exists r,
        nth_error rs (5 - j) = Some r /\
        T_before r
        = (if gearRatio (motor (tip_motor_float 1) j) !== lit_0
           then T_total r / gearRatio (motor (tip_motor_float 1) j)
           else lit_0)%num /\
        P r
        = (if rpm (motor (tip_motor_float 1) j) !== lit_0
           then T_before r * rpm (motor (tip_motor_float 1) j) * lit_1000
                / lit_9550
           else lit_0)%num.
Proof.
  assert (H : passes_validation (tip_motor_float 1)) by prove_valid.
  split; [exact H | exact (gearing_and_power (tip_motor_float 1) H)].
Defined.

(** C6. On an input that passes validation, for every joint [j] the three
    figures with safety factor are the safety factor of the joint times
    the total torque, the torque before gearing and the power. *)
Theorem safety_factor_scaling {num : Type} {N : JsNumber num}
  (d : InputData num) :
  passes_validation d ->
  exists rs,
    performCalculations d = Results rs /\
    forall j, j < 6 ->
      exists r,
        nth_error rs (5 - j) = Some r /\
        T_sf r = (safetyFactor (motor d j) * T_total r)%num /\
        T_before_sf r = (safetyFactor (motor d j) * T_before r)%num /\
        P_sf r = (safetyFactor (motor d j) * P r)%num.
Proof.
  intros H. eexists. split; [apply (performCalculations_valid d H)|].
  intros j Hj. exists (joint_result d j).
  split; [now apply nth_error_joint_results|].
  repeat split.
Qed.

Lemma safety_factor_scaling_witness :
  passes_validation dummy_float /\
  exists rs,
    performCalculations dummy_float = Results rs /\
    forall j, j < 6 ->
      exists r,
        nth_error rs (5 - j) = Some r /\
        T_sf r = (safetyFactor (motor dummy_float j) * T_total r)%num /\
        T_before_sf r
        = (safetyFactor (motor dummy_float j) * T_before r)%num /\
        P_sf r = (safetyFactor (motor dummy_float j) * P r)%num.
Proof.
  assert (H : passes_validation dummy_float) by prove_valid.
  split; [exact H | exact (safety_factor_scaling dummy_float H)].
Defined.

(** C7, as the function has it. Two inputs pass validation and differ in
    the payload mass alone, the second payload being the heavier. In
    binary64, when the lever arm [S[5] - pivot[j]] of the payload, as the
    function computes it, is not negative and neither total torque of joint
    [j] is NaN, the total torque for the second input is not smaller than
    for the first. In exact arithmetic it is greater when the lever arm is
    positive, equal when it is zero and smaller when it is negative. *)
Theorem payload_monotonicity :
  (forall (d1 d2 : InputData float) (j : nat),
     passes_validation d1 -> passes_validation d2 -> same_arm d1 d2 ->
     PrimFloat.ltb (m_payload d1) (m_payload d2) = true -> j < 6 ->
     PrimFloat.leb 0 (spec_S d1 5 - pivot d1 j)%num = true ->
     exists rs1 rs2 r1 r2,
       performCalculations d1 = Results rs1 /\
       performCalculations d2 = Results rs2 /\
       nth_error rs1 (5 - j) = Some r1 /\
       nth_error rs2 (5 - j) = Some r2 /\
       (is_nan (T_total r1) = false -> is_nan (T_total r2) = false ->
        PrimFloat.leb (T_total r1) (T_total r2) = true)) /\
  (forall (d1 d2 : InputData Q) (j : nat),
     passes_validation d1 -> passes_validation d2 -> same_arm d1 d2 ->
     (m_payload d1 < m_payload d2)%Q -> j < 6 ->
     exists rs1 rs2 r1 r2,
       performCalculations d1 = Results rs1 /\
       performCalculations d2 = Results rs2 /\
       nth_error rs1 (5 - j) = Some r1 /\
       nth_error rs2 (5 - j) = Some r2 /\
       ((0 < spec_S d1 5 - pivot d1 j)%Q -> (T_total r1 < T_total r2)%Q) /\
       ((spec_S d1 5 - pivot d1 j == 0)%Q -> (T_total r1 == T_total r2)%Q) /\
       ((spec_S d1 5 - pivot d1 j < 0)%Q -> (T_total r2 < T_total r1)%Q)).
Proof.
  split.
  - intros d1 d2 j H1 H2 Hsame Hp Hj Harm.
    exists (map (joint_result d1) [5; 4; 3; 2; 1; 0]).
    exists (map (joint_result d2) [5; 4; 3; 2; 1; 0]).
    exists (joint_result d1 j), (joint_result d2 j).
    split; [apply (performCalculations_valid d1 H1)|].
    split; [apply (performCalculations_valid d2 H2)|].
    split; [now apply nth_error_joint_results|].
    split; [now apply nth_error_joint_results|].
    apply T_total_payload_mono; try assumption.
    now apply float_ltb_le.
  - intros d1 d2 j H1 H2 Hsame Hp Hj.
    exists (map (joint_result d1) [5; 4; 3; 2; 1; 0]).
    exists (map (joint_result d2) [5; 4; 3; 2; 1; 0]).
    exists (joint_result d1 j), (joint_result d2 j).
    split; [apply (performCalculations_valid d1 H1)|].
    split; [apply (performCalculations_valid d2 H2)|].
    split; [now apply nth_error_joint_results|].
    split; [now apply nth_error_joint_results|].
    rewrite !(T_total_spec_torque _ j Hj).
    pose proof (spec_torque_payload d1 d2 j Hsame) as Hdiff.
    set (arm := (spec_S d1 5 - pivot d1 j)%Q) in *.
    set (dp := (m_payload d2 - m_payload d1)%Q) in *.
    assert (Hdp : (0 < dp)%Q) by (unfold dp; lra).
    repeat split; intros Harm.
    + assert (0 < dp * arm)%Q by now apply Qmult_lt_0_compat.
      lra.
    + rewrite Harm in Hdiff. lra.
    + assert (0 < dp * - arm)%Q by (apply Qmult_lt_0_compat; lra).
      lra.
Qed.

Lemma payload_monotonicity_witness :
  (PrimFloat.ltb (m_payload dummy_float)
                 (m_payload (with_payload dummy_float 6%float)) = true /\
   PrimFloat.leb 0 (spec_S dummy_float 5 - pivot dummy_float 0)%num = true /\
   exists rs1 rs2 r1 r2,
     performCalculations dummy_float = Results rs1 /\
     performCalculations (with_payload dummy_float 6%float) = Results rs2 /\
     nth_error rs1 (5 - 0) = Some r1 /\
     nth_error rs2 (5 - 0) = Some r2 /\
     (is_nan (T_total r1) = false -> is_nan (T_total r2) = false ->
      PrimFloat.leb (T_total r1) (T_total r2) = true)) /\
  ((m_payload dummy_Q < m_payload (with_payload dummy_Q 6))%Q /\
   exists rs1 rs2 r1 r2,
     performCalculations dummy_Q = Results rs1 /\
     performCalculations (with_payload dummy_Q 6%Q) = Results rs2 /\
     nth_error rs1 (5 - 0) = Some r1 /\
     nth_error rs2 (5 - 0) = Some r2 /\
     ((0 < spec_S dummy_Q 5 - pivot dummy_Q 0)%Q ->
      (T_total r1 < T_total r2)%Q) /\
     ((spec_S dummy_Q 5 - pivot dummy_Q 0 == 0)%Q ->
      (T_total r1 == T_total r2)%Q) /\
     ((spec_S dummy_Q 5 - pivot dummy_Q 0 < 0)%Q ->
      (T_total r2 < T_total r1)%Q)).
Proof.
  split.
  - assert (H1 : passes_validation dummy_float) by prove_valid.
    assert (H2 : passes_validation (with_payload dummy_float 6%float))
      by prove_valid.
    assert (Hs : same_arm dummy_float (with_payload dummy_float 6%float))
      by (repeat split).
    assert (Hp : PrimFloat.ltb (m_payload dummy_float)
                   (m_payload (with_payload dummy_float 6%float)) = true)
      by reflexivity.
    assert (Ha : PrimFloat.leb 0 (spec_S dummy_float 5 - pivot dummy_float 0)%num
                 = true) by (vm_compute; reflexivity).
    assert (Hj : 0 < 6) by lia.
    split; [exact Hp|]. split; [exact Ha|].
    exact (proj1 payload_monotonicity dummy_float
             (with_payload dummy_float 6%float) 0 H1 H2 Hs Hp Hj Ha).
  - assert (H1 : passes_validation dummy_Q) by prove_valid.
    assert (H2 : passes_validation (with_payload dummy_Q 6%Q)) by prove_valid.
    assert (Hs : same_arm dummy_Q (with_payload dummy_Q 6%Q))
      by (repeat split).
    assert (Hp : (m_payload dummy_Q < m_payload (with_payload dummy_Q 6))%Q)
      by reflexivity.
    assert (Hj : 0 < 6) by lia.
    split; [exact Hp|].
    exact (proj2 payload_monotonicity dummy_Q (with_payload dummy_Q 6%Q) 0
             H1 H2 Hs Hp Hj).
Defined.

(** C7, as the specification states it, fails. With motor 6 at the tip of
    the arm the payload has no lever arm about joint 5: the payload doubles
    and the total torque of joint 5 stays 0, in binary64 as in exact
    arithmetic. *)
Lemma payload_monotonicity_counterexample :
  (passes_validation (tip_motor_float 1) /\
   passes_validation (tip_motor_float 2) /\
   same_arm (tip_motor_float 1) (tip_motor_float 2) /\
   ltb (m_payload (tip_motor_float 1)) (m_payload (tip_motor_float 2)) = true /\
   exists r1 rs1 r2 rs2,
     performCalculations (tip_motor_float 1) = Results (r1 :: rs1) /\
     performCalculations (tip_motor_float 2) = Results (r2 :: rs2) /\
     T_total r1 = 0%float /\ T_total r2 = 0%float /\
     ltb (T_total r1) (T_total r2) = false) /\
  (passes_validation (tip_motor_Q 1) /\
   passes_validation (tip_motor_Q 2) /\
   same_arm (tip_motor_Q 1) (tip_motor_Q 2) /\
   (m_payload (tip_motor_Q 1) < m_payload (tip_motor_Q 2))%Q /\
   exists r1 rs1 r2 rs2,
     performCalculations (tip_motor_Q 1) = Results (r1 :: rs1) /\
     performCalculations (tip_motor_Q 2) = Results (r2 :: rs2) /\
     ~ (T_total r1 < T_total r2)%Q).
Proof.
  split.
  - split; [prove_valid|]. split; [prove_valid|].
    split; [repeat split|]. split; [reflexivity|].
    do 4 eexists.
    split; [vm_compute; reflexivity|].
    split; [vm_compute; reflexivity|].
    repeat split.
  - split; [prove_valid|]. split; [prove_valid|].
    split; [repeat split|]. split; [reflexivity|].
    do 4 eexists.
    split; [vm_compute; reflexivity|].
    split; [vm_compute; reflexivity|].
    cbn. intros H. discriminate H.
Qed.

(** In binary64 the heavier payload can also be absorbed by rounding: on
    the sample arm, whose six lever arms are positive, the payloads 1e-20
    and 2e-20 give the same six total torques. *)
Example payload_absorbed_by_rounding :
  passes_validation (with_payload dummy_float 1e-20%float) /\
  passes_validation (with_payload dummy_float 2e-20%float) /\
  PrimFloat.ltb 1e-20 2e-20 = true /\
  forallb (fun j => PrimFloat.ltb (pivot dummy_float j) (spec_S dummy_float 5))
          [0; 1; 2; 3; 4; 5] = true /\
  exists rs,
    performCalculations (with_payload dummy_float 1e-20%float) = Results rs /\
    performCalculations (with_payload dummy_float 2e-20%float) = Results rs.
Proof.
  split; [prove_valid|]. split; [prove_valid|].
  split; [reflexivity|]. split; [vm_compute; reflexivity|].
  eexists. split; vm_compute; reflexivity.
Qed.

(** In binary64 a payload so heavy that its weight overflows can turn a
    total torque into NaN, which compares with nothing: on an arm where the
    weight of a motor overflows with a negative lever arm, the payload 5
    gives joint 1 the total torque -Infinity and the payload 1e308 gives it
    NaN, the lever arm of the payload being positive. *)
Example payload_overflow_not_a_number :
  passes_validation (overflowing_float 5) /\
  passes_validation (overflowing_float 1e308) /\
  same_arm (overflowing_float 5) (overflowing_float 1e308) /\
  PrimFloat.ltb 5 1e308 = true /\
  PrimFloat.leb 0 (spec_S (overflowing_float 5) 5
                   - pivot (overflowing_float 5) 0)%num = true /\
  exists rs1 rs2 r1 r2,
    performCalculations (overflowing_float 5) = Results rs1 /\
    performCalculations (overflowing_float 1e308) = Results rs2 /\
    nth_error rs1 5 = Some r1 /\ nth_error rs2 5 = Some r2 /\
    T_total r1 = neg_infinity /\ is_nan (T_total r2) = true /\
    PrimFloat.leb (T_total r1) (T_total r2) = false.
Proof.
  split; [prove_valid|]. split; [prove_valid|].
  split; [repeat split|]. split; [reflexivity|].
  split; [vm_compute; reflexivity|].
  do 4 eexists.
  split; [vm_compute; reflexivity|].
  split; [vm_compute; reflexivity|].
  split; [reflexivity|]. split; [reflexivity|].
  repeat split.
Qed.

(** C9. Validation bounds no pivot position from above and does not
    compare it with the length of the arm. The sample arm with motor 6
    placed at 2.0 m, beyond the tip at 1.8 m, passes validation, and the
    total torque of its first result, that of joint 5, is negative; in
    binary64 and in exact arithmetic. *)
Theorem negative_torque_passes_validation :
  (passes_validation overhung_float /\
   ltb (spec_S overhung_float 5) (pivot overhung_float 5) = true /\
   exists r rs,
     performCalculations overhung_float = Results (r :: rs) /\
     ltb (T_total r) lit_0 = true) /\
  (passes_validation overhung_Q /\
   (spec_S overhung_Q 5 < pivot overhung_Q 5)%Q /\
   exists r rs,
     performCalculations overhung_Q = Results (r :: rs) /\
     (T_total r < 0)%Q).
Proof.
  split.
  - split; [prove_valid|]. split; [vm_compute; reflexivity|].
    do 2 eexists. split; [vm_compute; reflexivity|].
    vm_compute; reflexivity.
  - split; [prove_valid|]. split; [reflexivity|].
    do 2 eexists. split; [vm_compute; reflexivity|].
    reflexivity.
Qed.

(** C10, as the function has it. An input whose density is 0 and which
    passes every other check is accepted: the test on the density does not
    fire, although its message reads "Density must be positive", and the
    function returns results. Every link then weighs 0, and the total
    torque of every joint [j] is the sum of the payload contribution and of
    the contributions of the motors [k > j]:
    - in binary64, as long as the squares of the radii, the lengths and the
      lever arms of the links are finite, and up to the sign of a zero;
    - in exact arithmetic, always. *)
Theorem zero_density_accepted :
  message LinkDensity = "Density must be positive"%string /\
  (forall d : InputData float,
     PrimFloat.eqb (density d) 0 = true ->
     (forall c, In c validation_order -> c <> LinkDensity ->
                violated d c = false) ->
     violated d LinkDensity = false /\
     exists rs,
       performCalculations d = Results rs /\
       List.length rs = 6 /\
       ((forall k, k < 6 ->
           is_finite (sqr (radius (link d k))) = true /\
           is_finite (length (link d k)) = true) ->
        (forall k, k < 6 -> PrimFloat.eqb (spec_W_link d k) 0 = true) /\
        forall j, j < 6 ->
          (forall k, j <= k < 6 ->
             is_finite (spec_S d k - pivot d j - length (link d k) / lit_2)%num
             = true) ->
          exists r,
            nth_error rs (5 - j) = Some r /\
            same_number
              (T_total r)
              (sum_left (map (spec_term d j)
                             (without_links (summation_order j)))) /\
            Permutation (without_links (summation_order j))
                        (payload_and_motor_terms j))) /\
  (forall d : InputData Q,
     (density d == 0)%Q ->
     (forall c, In c validation_order -> c <> LinkDensity -> satisfied d c) ->
     violated d LinkDensity = false /\
     exists rs,
       performCalculations d = Results rs /\
       (forall i, i < 6 -> (spec_W_link d i == 0)%Q) /\
       forall j, j < 6 ->
         exists r,
           nth_error rs (5 - j) = Some r /\
           (T_total r
            == total (map (spec_term d j) (payload_and_motor_terms j)))%Q).
Proof.
  split; [reflexivity|]. split.
  - intros d Hrho Hother.
    assert (Hrho' : violated d LinkDensity = false)
      by now apply float_eqb_zero_ltb.
    assert (H : passes_validation d).
    { apply passes_validation_iff. unfold first_violation.
      apply find_none_iff, Forall_forall. intros c Hc.
      destruct (Check_eqb c LinkDensity) eqn:E.
      - apply Check_eqb_eq in E. now subst.
      - apply Hother; [exact Hc|]. intros ->. discriminate E. }
    split; [exact Hrho'|].
    exists (map (joint_result d) [5; 4; 3; 2; 1; 0]).
    split; [apply (performCalculations_valid d H)|].
    split; [reflexivity|].
    intros Hfin.
    assert (Hw : forall k, k < 6 -> PrimFloat.eqb (spec_W_link d k) 0 = true).
    { intros k Hk. destruct (Hfin k Hk) as (Hr & Hl).
      now apply spec_W_link_zero_binary64. }
    split; [exact Hw|].
    intros j Hj Harm. exists (joint_result d j).
    split; [now apply nth_error_joint_results|].
    split; [|now apply without_links_summation_order].
    apply T_total_without_links; [exact Hj|].
    intros k Hk. split; [apply Hw; lia | now apply Harm].
  - intros d Hrho Hother.
    assert (Hrho' : satisfied d LinkDensity) by (cbn; rewrite Hrho; lra).
    assert (H : passes_validation d).
    { apply passes_validation_satisfied, Forall_forall. intros c Hc.
      destruct (Check_eqb c LinkDensity) eqn:E.
      - apply Check_eqb_eq in E. now subst.
      - apply Hother; [exact Hc|]. intros ->. discriminate E. }
    split; [now apply violated_false_iff|].
    exists (map (joint_result d) [5; 4; 3; 2; 1; 0]).
    split; [apply (performCalculations_valid d H)|].
    split; [intros i _; now apply spec_W_link_zero|].
    intros j Hj. exists (joint_result d j).
    split; [now apply nth_error_joint_results|].
    rewrite (T_total_spec_torque d j Hj).
    now apply spec_torque_zero_density.
Qed.

Lemma zero_density_accepted_witness :
  (density (tip_motor_float 1) = 0%float /\
   violated (tip_motor_float 1) LinkDensity = false /\
   exists rs,
     performCalculations (tip_motor_float 1) = Results rs /\
     List.length rs = 6 /\
     ((forall k, k < 6 ->
         is_finite (sqr (radius (link (tip_motor_float 1) k))) = true /\
         is_finite (length (link (tip_motor_float 1) k)) = true) ->
      (forall k, k < 6 ->
         PrimFloat.eqb (spec_W_link (tip_motor_float 1) k) 0 = true) /\
      forall j, j < 6 ->
        (forall k, j <= k < 6 ->
           is_finite (spec_S (tip_motor_float 1) k
                      - pivot (tip_motor_float 1) j
                      - length (link (tip_motor_float 1) k) / lit_2)%num
           = true) ->
        exists r,
          nth_error rs (5 - j) = Some r /\
          same_number
            (T_total r)
            (sum_left (map (spec_term (tip_motor_float 1) j)
                           (without_links (summation_order j)))) /\
          Permutation (without_links (summation_order j))
                      (payload_and_motor_terms j))) /\
  ((density (tip_motor_Q 1) == 0)%Q /\
   violated (tip_motor_Q 1) LinkDensity = false /\
   exists rs,
     performCalculations (tip_motor_Q 1) = Results rs /\
     (forall i, i < 6 -> (spec_W_link (tip_motor_Q 1) i == 0)%Q) /\
     forall j, j < 6 ->
       exists r,
         nth_error rs (5 - j) = Some r /\
         (T_total r
          == total (map (spec_term (tip_motor_Q 1) j)
                        (payload_and_motor_terms j)))%Q).
Proof.
  split.
  - split; [reflexivity|].
    apply (proj1 (proj2 zero_density_accepted) (tip_motor_float 1));
      [reflexivity|].
    intros c Hc Hne. unfold validation_order in Hc; cbn in Hc.
    repeat (destruct Hc as [<-|Hc];
            [first [now elim Hne | reflexivity]|]).
    contradiction.
  - assert (Hrho : (density (tip_motor_Q 1) == 0)%Q) by reflexivity.
    split; [exact Hrho|].
    apply (proj2 (proj2 zero_density_accepted) (tip_motor_Q 1) Hrho).
    intros c Hc Hne. unfold validation_order in Hc; cbn in Hc.
    repeat (destruct Hc as [<-|Hc];
            [first [now elim Hne | cbn; lra | reflexivity]|]).
    contradiction.
Defined.

(** The finiteness that the binary64 part asks for holds on the arm of
    this example: there the six links weigh 0 and every total torque is
    the payload contribution (the motors are massless). *)
Example zero_density_binary64_sample :
  (forall k, k < 6 ->
     is_finite (sqr (radius (link (tip_motor_float 1) k))) = true /\
     is_finite (length (link (tip_motor_float 1) k)) = true /\
     spec_W_link (tip_motor_float 1) k = 0%float) /\
  (forall j k, j < 6 -> k < 6 ->
     is_finite (spec_S (tip_motor_float 1) k - pivot (tip_motor_float 1) j
                - length (link (tip_motor_float 1) k) / lit_2)%num = true).
Proof.
  split.
  - intros k Hk.
    do 6 (destruct k as [|k]; [repeat split; vm_compute; reflexivity|]). lia.
  - intros j k Hj Hk.
    do 6 (destruct j as [|j];
          [do 6 (destruct k as [|k]; [vm_compute; reflexivity|]); lia|]).
    lia.
Qed.

(** C10, as the specification states it, fails in binary64 when the square
    of a radius overflows. With a density of 0 and links of radius 1e200
    the input passes validation, the weight of every link is
    [0 * Infinity], which is NaN, and so is the total torque of joint 5. *)
Lemma zero_density_accepted_counterexample :
  passes_validation wide_links_float /\
  density wide_links_float = 0%float /\
  sqr (radius (link wide_links_float 5)) = infinity /\
  is_nan (spec_W_link wide_links_float 5) = true /\
  exists r rs,
    performCalculations wide_links_float = Results (r :: rs) /\
    is_nan (T_total r) = true.
Proof.
  split; [prove_valid|].
  split; [reflexivity|].
  split; [vm_compute; reflexivity|].
  split; [vm_compute; reflexivity|].
  do 2 eexists. split; [vm_compute; reflexivity|].
  vm_compute; reflexivity.
Qed.

(** * Further properties of the function *)

Section Outcomes.

Context {num : Type} {N : JsNumber num}.

(** No check has the message of the [catch] clause. *)
Lemma message_not_fallback (c : Check) :
  In c validation_order -> message c <> fallback_message.
Proof.
  intros Hc E.
  assert (H : forallb (fun c' => negb (String.eqb (message c') fallback_message))
                      validation_order = true) by (vm_compute; reflexivity).
  rewrite forallb_forall in H. specialize (H c Hc).
  rewrite E, String.eqb_refl in H. discriminate H.
Qed.

Lemma spec_S_lengths (d1 d2 : InputData num) (i : nat) :
  (forall k, length (link d1 k) = length (link d2 k)) ->
  spec_S d1 i = spec_S d2 i.
Proof.
  intros H. induction i as [|i IH]; cbn [spec_S]; rewrite H;
    [reflexivity | now rewrite IH].
Qed.

Lemma summation_order_range (j : nat) (t : Term) :
  j < 6 -> In t (summation_order j) ->
  t = PayloadTerm \/
  (exists k, t = LinkTerm k /\ j <= k < 6) \/
  (exists k, t = MotorTerm k /\ j < k < 6).
Proof.
  intros Hj Ht.
  do 6 (destruct j as [|j];
        [cbn in Ht;
         repeat (destruct Ht as [<-|Ht];
                 [first [ now left
                        | right; left; eexists; split; [reflexivity|lia]
                        | right; right; eexists; split; [reflexivity|lia] ]|]);
         contradiction|]).
  lia.
Qed.

(** The block of joint [j] reads nothing else than what [same_for_joint]
    lists. *)
Lemma joint_result_frame (d1 d2 : InputData num) (j : nat) :
  j < 6 -> same_for_joint j d1 d2 -> joint_result d1 j = joint_result d2 j.
Proof.
  intros Hj (Hp & Hrho & Hlen & Hrad & Hmot & Hpiv & Hrpm & Hgear & Hsf).
  assert (HT : map (spec_term d1 j) (summation_order j)
               = map (spec_term d2 j) (summation_order j)).
  { apply map_ext_in. intros t Ht.
    destruct (summation_order_range j t Hj Ht)
      as [->|[(k & -> & Hk)|(k & -> & Hk)]];
      unfold spec_term, spec_W_payload, spec_W_link, spec_W_motor, pivot.
    - now rewrite Hp, Hpiv, (spec_S_lengths d1 d2 5 Hlen).
    - rewrite Hrho, Hpiv, (spec_S_lengths d1 d2 k Hlen), (Hlen k).
      rewrite (Hrad k) by lia. reflexivity.
    - destruct (Hmot k) as (Hm & Ha & Hpk); [lia|].
      now rewrite Hm, Ha, Hpk, Hpiv. }
  unfold joint_result, spec_T_before, spec_power.
  now rewrite HT, Hrpm, Hgear, Hsf.
Qed.

End Outcomes.

(** X1. The function returns results only on an input that passes
    validation, and then the results of the joints 5, 4, 3, 2, 1, 0. When it
    returns an error, the message is that of the first check whose test
    fires; it is never the message that the [catch] clause holds in
    reserve. *)
Theorem outcome_is_results_or_a_check {num : Type} {N : JsNumber num}
  (d : InputData num) :
  (forall rs,
     performCalculations d = Results rs ->
     passes_validation d /\ rs = map (joint_result d) [5; 4; 3; 2; 1; 0]) /\
  (forall msg,
     performCalculations d = ErrorObject msg ->
     msg <> fallback_message /\
     exists pre c post,
       validation_order = pre ++ c :: post /\
       Forall (fun c' => violated d c' = false) pre /\
       violated d c = true /\
       msg = message c).
Proof.
  rewrite performCalculations_closed_form.
  destruct (first_violation d) as [c|] eqn:E; split.
  - discriminate.
  - intros msg [= <-].
    destruct (find_split _ _ _ E) as (pre & post & Hsplit & Hpre & Hc).
    split.
    + apply message_not_fallback. rewrite Hsplit. apply in_elt.
    + exists pre, c, post. repeat split; assumption.
  - intros rs [= <-]. split; [now apply passes_validation_iff | reflexivity].
  - discriminate.
Qed.

Lemma outcome_is_results_or_a_check_witness :
  (passes_validation dummy_float /\
   map (joint_result dummy_float) [5; 4; 3; 2; 1; 0]
   = map (joint_result dummy_float) [5; 4; 3; 2; 1; 0]) /\
  ("Link 1 length must be positive"%string <> fallback_message /\
   exists pre c post,
     validation_order = pre ++ c :: post /\
     Forall (fun c' => violated defaultValues c' = false) pre /\
     violated defaultValues c = true /\
     "Link 1 length must be positive"%string = message c).
Proof.
  split.
  - apply (proj1 (outcome_is_results_or_a_check dummy_float)).
    vm_compute; reflexivity.
  - apply (proj2 (outcome_is_results_or_a_check defaultValues)).
    vm_compute; reflexivity.
Defined.

(** X2. The result of joint [j] depends on the input only through the
    payload mass, the density, the lengths of the links, the radii of the
    links [k >= j], the mass, body length and pivot of the motors [k > j]
    and the pivot, rpm, gear ratio and safety factor of motor [j]: two
    inputs that pass validation and agree on these get the same result for
    joint [j]. In particular no figure depends on the mass or the body
    length of motor 1. *)
Theorem joint_reads_only_what_lies_beyond {num : Type} {N : JsNumber num}
  (d1 d2 : InputData num) (j : nat) :
  passes_validation d1 -> passes_validation d2 -> j < 6 ->
  same_for_joint j d1 d2 ->
  exists rs1 rs2 r,
    performCalculations d1 = Results rs1 /\
    performCalculations d2 = Results rs2 /\
    nth_error rs1 (5 - j) = Some r /\
    nth_error rs2 (5 - j) = Some r.
Proof.
  intros H1 H2 Hj Hsame.
  exists (map (joint_result d1) [5; 4; 3; 2; 1; 0]).
  exists (map (joint_result d2) [5; 4; 3; 2; 1; 0]).
  exists (joint_result d1 j).
  split; [apply (performCalculations_valid d1 H1)|].
  split; [apply (performCalculations_valid d2 H2)|].
  split; [now apply nth_error_joint_results|].
  rewrite (joint_result_frame d1 d2 j Hj Hsame).
  now apply nth_error_joint_results.
Qed.

Lemma joint_reads_only_what_lies_beyond_witness :
  exists rs1 rs2 r,
    performCalculations dummy_float = Results rs1 /\
    performCalculations (with_motor_body dummy_float 0 50 3)%float
    = Results rs2 /\
    nth_error rs1 (5 - 0) = Some r /\
    nth_error rs2 (5 - 0) = Some r.
Proof.
  apply (joint_reads_only_what_lies_beyond
           dummy_float (with_motor_body dummy_float 0 50 3)%float 0).
  - prove_valid.
  - prove_valid.
  - lia.
  - unfold same_for_joint.
    do 2 (split; [reflexivity|]).
    split; [intros k; reflexivity|].
    split; [intros k _; reflexivity|].
    split; [intros [|k] Hk; [lia|]; repeat split; reflexivity|].
    repeat split; reflexivity.
Defined.

(** X3. No figure depends on the mass or on the body length of motor 1, the
    motor at the base: replacing them by other values that pass their
    checks leaves the outcome as it is. *)
Theorem base_motor_body_is_not_read {num : Type} {N : JsNumber num}
  (d : InputData num) (m a : num) :
  passes_validation d ->
  ltb m lit_0 = false -> ltb a lit_0 = false ->
  performCalculations (with_motor_body d 0 m a) = performCalculations d.
Proof.
  intros H Hm Ha.
  assert (H' : passes_validation (with_motor_body d 0 m a)).
  { destruct H as (Hp & Hrho & Hls & Hms & Hl & Hmo).
    destruct d as [p rho ls ms]; cbn in *.
    destruct (length_6 ms Hms) as (m0 & m1 & m2 & m3 & m4 & m5 & ->).
    repeat match goal with
           | H : Forall _ (_ :: _) |- _ => inversion_clear H
           | H : motor_ok _ |- _ => destruct H as (? & ? & ? & ? & ? & ?)
           end.
    unfold passes_validation, motor_ok; cbn.
    repeat split; try assumption; repeat constructor; assumption. }
  rewrite (performCalculations_valid _ H), (performCalculations_valid _ H').
  f_equal. apply map_ext_in. intros j Hj.
  assert (Hj6 : j < 6) by (cbn in Hj; lia).
  apply joint_result_frame; [exact Hj6|].
  destruct H as (_ & _ & _ & Hms & _ & _).
  destruct d as [p rho ls ms]; cbn in Hms.
  destruct (length_6 ms Hms) as (m0 & m1 & m2 & m3 & m4 & m5 & ->).
  unfold same_for_joint.
  do 2 (split; [reflexivity|]).
  split; [intros k; reflexivity|].
  split; [intros k _; reflexivity|].
  split.
  - intros k Hk. destruct k as [|k]; [lia|]. repeat split; reflexivity.
  - destruct j as [|j]; repeat split; reflexivity.
Qed.

Lemma base_motor_body_is_not_read_witness :
  performCalculations (with_motor_body dummy_float 0 50 3)%float
  = performCalculations dummy_float.
Proof.
  apply (base_motor_body_is_not_read dummy_float 50 3)%float.
  - prove_valid.
  - reflexivity.
  - reflexivity.
Defined.

(** ** Signs and sizes, in exact arithmetic *)

Section ExactSigns.

Local Open Scope Q_scope.

Lemma validation_order_index (k : nat) :
  (k < 6)%nat ->
  In (LinkLength k) validation_order /\ In (LinkRadius k) validation_order /\
  In (MotorMass k) validation_order /\
  In (MotorBodyLength k) validation_order /\
  In (MotorPivotPosition k) validation_order /\
  In (MotorRpm k) validation_order /\
  In (MotorGearRatio k) validation_order /\
  In (MotorSafetyFactor k) validation_order.
Proof.
  intros Hk.
  do 6 (destruct k as [|k]; [unfold validation_order; cbn; tauto|]). lia.
Qed.

(** What validation establishes, over the rationals. *)
Lemma valid_exact (d : InputData Q) :
  passes_validation d ->
  0 <= m_payload d /\ 0 <= density d /\
  forall k, (k < 6)%nat ->
    0 < length (link d k) /\ 0 < radius (link d k) /\
    0 <= mass (motor d k) /\ 0 <= bodyLength (motor d k) /\
    0 <= pivot d k /\ 0 <= rpm (motor d k) /\
    0 <= gearRatio (motor d k) /\ 1 <= safetyFactor (motor d k).
Proof.
  intros H. apply passes_validation_satisfied in H.
  rewrite Forall_forall in H.
  split; [apply (H PayloadMass); cbn; tauto|].
  split; [apply (H LinkDensity); cbn; tauto|].
  intros k Hk.
  destruct (validation_order_index k Hk)
    as (H1 & H2 & H3 & H4 & H5 & H6 & H7 & H8).
  repeat split.
  - exact (H _ H1).
  - exact (H _ H2).
  - exact (H _ H3).
  - exact (H _ H4).
  - exact (H _ H5).
  - exact (H _ H6).
  - exact (H _ H7).
  - exact (H _ H8).
Qed.

Lemma weight_nonneg (d : InputData Q) (t : Term) :
  passes_validation d -> term_in_range t -> 0 <= weight d t.
Proof.
  intros H Ht. destruct (valid_exact d H) as (Hp & Hrho & Hk).
  destruct t as [|k|k]; cbn [weight term_in_range] in *;
    unfold spec_W_payload, spec_W_link, spec_W_motor; q_ops;
    change (@lit_3_141592653589793 Q JsNumber_Q) with 3.141592653589793;
    change (@sqr Q JsNumber_Q) with (fun x : Q => x * x).
  - apply Qmult_le_0_compat; [discriminate | exact Hp].
  - destruct (Hk k Ht) as (Hl & Hr & _).
    repeat apply Qmult_le_0_compat;
      first [discriminate | assumption | now apply Qlt_le_weak].
  - destruct (Hk k Ht) as (_ & _ & Hm & _).
    apply Qmult_le_0_compat; [discriminate | exact Hm].
Qed.

Lemma spec_terms_range (j : nat) (t : Term) :
  (j < 6)%nat -> In t (spec_terms j) ->
  t = PayloadTerm \/
  (exists k, t = LinkTerm k /\ (j <= k < 6)%nat) \/
  (exists k, t = MotorTerm k /\ (j < k < 6)%nat).
Proof.
  intros Hj [<-|Ht]; [now left|]. right.
  apply in_app_or in Ht. destruct Ht as [Ht|Ht];
    apply in_map_iff in Ht; destruct Ht as (k & <- & Hk);
    apply in_seq in Hk; [left | right]; exists k; split;
    first [reflexivity | lia].
Qed.

Lemma total_nonneg (xs : list Q) :
  Forall (fun x => 0 <= x) xs -> 0 <= total xs.
Proof.
  induction 1 as [|x xs Hx _ IH]; [discriminate|].
  rewrite total_cons. q_ops.
  replace 0 with (0 + 0) by reflexivity. now apply Qplus_le_compat.
Qed.

Lemma total_le (f g : Term -> Q) (ts : list Term) :
  (forall t, In t ts -> f t <= g t) ->
  total (map f ts) <= total (map g ts).
Proof.
  induction ts as [|t ts IH]; intros H; [apply Qle_refl|].
  cbn [map]. rewrite !total_cons. apply Qplus_le_compat.
  - apply H. now left.
  - apply IH. intros u Hu. apply H. now right.
Qed.

(** A contribution is a weight times a lever arm, and moving the pivot
    moves every lever arm alike. *)
Lemma spec_term_shift (d : InputData Q) (j j' : nat) (t : Term) :
  spec_term d j t
  == spec_term d j' t + weight d t * (pivot d j' - pivot d j).
Proof.
  destruct t; cbn [spec_term weight]; q_ops; ring.
Qed.

End ExactSigns.

Lemma half_nonneg (x : Q) : (0 <= x -> 0 <= x / 2)%Q.
Proof.
  intros Hx. apply Qmult_le_0_compat; [exact Hx | discriminate].
Qed.

(** The contributions to joint [j] are those to joint [j + 1], the link
    [j] and the motor [j + 1]. *)
Lemma spec_terms_step (j : nat) :
  j < 5 ->
  Permutation (spec_terms j)
              (LinkTerm j :: MotorTerm (S j) :: spec_terms (S j)).
Proof.
  intros Hj.
  do 5 (destruct j as [|j];
        [apply NoDup_Permutation;
         [ repeat (constructor; [cbn; intuition discriminate|]); constructor
         | repeat (constructor; [cbn; intuition discriminate|]); constructor
         | intros x; cbn; tauto ]
        |]).
  lia.
Qed.

(** X4. In exact arithmetic, on an input that passes validation, the total
    torque of joint [j] is not negative when its pivot lies at or before
    the midpoint [S[k] - length[k]/2] of every link [k >= j] and at or
    before the pivot of every motor [k > j]; the torque with safety factor
    is then at least the total torque. *)
Theorem torque_not_negative (d : InputData Q) (j : nat) :
  passes_validation d -> j < 6 ->
  (forall k, j <= k < 6 ->
     (pivot d j <= spec_S d k - length (link d k) / 2)%Q) ->
  (forall k, j < k < 6 -> (pivot d j <= pivot d k)%Q) ->
  exists rs r,
    performCalculations d = Results rs /\
    nth_error rs (5 - j) = Some r /\
    (0 <= T_total r)%Q /\ (T_total r <= T_sf r)%Q.
Proof.
  intros H Hj Hlinks Hmotors.
  exists (map (joint_result d) [5; 4; 3; 2; 1; 0]), (joint_result d j).
  split; [apply (performCalculations_valid d H)|].
  split; [now apply nth_error_joint_results|].
  destruct (valid_exact d H) as (Hp & Hrho & Hfields).
  assert (HT : (0 <= T_total (joint_result d j))%Q).
  { rewrite (T_total_spec_torque d j Hj). unfold spec_torque.
    apply total_nonneg, Forall_forall. intros x Hx.
    apply in_map_iff in Hx. destruct Hx as (t & <- & Ht).
    destruct (spec_terms_range j t Hj Ht)
      as [->|[(k & -> & Hk)|(k & -> & Hk)]].
    - cbn [spec_term]. q_ops. apply Qmult_le_0_compat.
      + now apply (weight_nonneg d PayloadTerm).
      + specialize (Hlinks 5%nat ltac:(lia)).
        destruct (Hfields 5%nat ltac:(lia)) as (Hl5 & _).
        pose proof (half_nonneg _ (Qlt_le_weak _ _ Hl5)). lra.
    - cbn [spec_term]. q_ops. apply Qmult_le_0_compat.
      + apply (weight_nonneg d (LinkTerm k)); [exact H | cbn; lia].
      + specialize (Hlinks k Hk). lra.
    - cbn [spec_term]. q_ops. apply Qmult_le_0_compat.
      + apply (weight_nonneg d (MotorTerm k)); [exact H | cbn; lia].
      + specialize (Hmotors k Hk).
        destruct (Hfields k ltac:(lia)) as (_ & _ & _ & Ha & _).
        pose proof (half_nonneg _ Ha). lra. }
  split; [exact HT|].
  destruct (Hfields j Hj) as (_ & _ & _ & _ & _ & _ & _ & Hsf).
  cbn [joint_result T_total T_sf] in *. q_ops.
  set (T := sum_left (map (spec_term d j) (summation_order j))) in *.
  assert (0 <= (safetyFactor (motor d j) - 1) * T)%Q
    by (apply Qmult_le_0_compat; [lra | exact HT]).
  lra.
Qed.

Lemma torque_not_negative_witness :
  exists rs r,
    performCalculations dummy_Q = Results rs /\
    nth_error rs (5 - 2) = Some r /\
    (0 <= T_total r)%Q /\ (T_total r <= T_sf r)%Q.
Proof.
  apply (torque_not_negative dummy_Q 2).
  - prove_valid.
  - lia.
  - intros k Hk.
    do 6 (destruct k as [|k]; [first [lia | vm_compute; discriminate]|]). lia.
  - intros k Hk.
    do 6 (destruct k as [|k]; [first [lia | vm_compute; discriminate]|]). lia.
Defined.

(** X5. In exact arithmetic, on an input that passes validation, the total
    torque does not decrease toward the base: joint [j] carries at least
    the total torque of joint [j + 1] when its pivot lies at or before the
    pivot of joint [j + 1] and at or before the midpoint of its own
    link. *)
Theorem torque_grows_toward_the_base (d : InputData Q) (j : nat) :
  passes_validation d -> j < 5 ->
  (pivot d j <= pivot d (S j))%Q ->
  (pivot d j <= spec_S d j - length (link d j) / 2)%Q ->
  exists rs r r',
    performCalculations d = Results rs /\
    nth_error rs (5 - j) = Some r /\
    nth_error rs (5 - S j) = Some r' /\
    (T_total r' <= T_total r)%Q.
Proof.
  intros H Hj Hpiv Hmid.
  exists (map (joint_result d) [5; 4; 3; 2; 1; 0]).
  exists (joint_result d j), (joint_result d (S j)).
  split; [apply (performCalculations_valid d H)|].
  split; [apply nth_error_joint_results; lia|].
  split; [apply nth_error_joint_results; lia|].
  destruct (valid_exact d H) as (Hp & Hrho & Hfields).
  rewrite (T_total_spec_torque d j) by lia.
  rewrite (T_total_spec_torque d (S j)) by lia.
  unfold spec_torque at 2.
  rewrite (total_permutation _ _
             (Permutation_map (spec_term d j) (spec_terms_step j Hj))).
  cbn [map]. rewrite !total_cons. unfold spec_torque.
  assert (Hlink : (0 <= spec_term d j (LinkTerm j))%Q).
  { cbn [spec_term]. q_ops. apply Qmult_le_0_compat.
    - apply (weight_nonneg d (LinkTerm j)); [exact H | cbn; lia].
    - lra. }
  assert (Hmotor : (0 <= spec_term d j (MotorTerm (S j)))%Q).
  { cbn [spec_term]. q_ops. apply Qmult_le_0_compat.
    - apply (weight_nonneg d (MotorTerm (S j))); [exact H | cbn; lia].
    - destruct (Hfields (S j) ltac:(lia)) as (_ & _ & _ & Ha & _).
      pose proof (half_nonneg _ Ha). lra. }
  assert (Hrest : (total (map (spec_term d (S j)) (spec_terms (S j)))
                   <= total (map (spec_term d j) (spec_terms (S j))))%Q).
  { apply total_le. intros t Ht.
    rewrite (spec_term_shift d j (S j) t).
    assert (0 <= weight d t * (pivot d (S j) - pivot d j))%Q.
    { apply Qmult_le_0_compat; [|lra].
      apply weight_nonneg; [exact H|].
      destruct (spec_terms_range (S j) t ltac:(lia) Ht)
        as [->|[(k & -> & Hk)|(k & -> & Hk)]]; cbn; lia. }
    lra. }
  q_ops. lra.
Qed.

Lemma torque_grows_toward_the_base_witness :
  exists rs r r',
    performCalculations dummy_Q = Results rs /\
    nth_error rs (5 - 0) = Some r /\
    nth_error rs (5 - 1) = Some r' /\
    (T_total r' <= T_total r)%Q.
Proof.
  apply (torque_grows_toward_the_base dummy_Q 0).
  - prove_valid.
  - lia.
  - vm_compute; discriminate.
  - vm_compute; discriminate.
Defined.

(** X6. In exact arithmetic, on an input that passes validation and for
    every joint: the torque before gearing times the gear ratio gives back
    the total torque when the gear ratio is not 0; a gear ratio of 0 makes
    the torque before gearing and the power 0, with and without safety
    factor, whatever the total torque and the rpm; and the power times 9550
    is the torque before gearing times the rpm times 1000, also when the
    rpm is 0. *)
Theorem gearing_round_trip (d : InputData Q) (j : nat) :
  passes_validation d -> j < 6 ->
  exists rs r,
    performCalculations d = Results rs /\
    nth_error rs (5 - j) = Some r /\
    (~ (gearRatio (motor d j) == 0)%Q ->
     (T_before r * gearRatio (motor d j) == T_total r)%Q) /\
    ((gearRatio (motor d j) == 0)%Q ->
     (T_before r == 0)%Q /\ (T_before_sf r == 0)%Q /\
     (P r == 0)%Q /\ (P_sf r == 0)%Q) /\
    (P r * 9550 == T_before r * rpm (motor d j) * 1000)%Q.
Proof.
  intros H Hj.
  exists (map (joint_result d) [5; 4; 3; 2; 1; 0]), (joint_result d j).
  split; [apply (performCalculations_valid d H)|].
  split; [now apply nth_error_joint_results|].
  cbn [joint_result T_total T_before T_before_sf P P_sf].
  set (T := sum_left (map (spec_term d j) (summation_order j))).
  unfold spec_power, spec_T_before.
  cbn [neqb JsNumber_Q]. q_ops.
  change (@lit_1000 Q JsNumber_Q) with 1000%Q.
  change (@lit_9550 Q JsNumber_Q) with 9550%Q.
  destruct (Qeq_bool (gearRatio (motor d j)) 0) eqn:Eg;
    [apply Qeq_bool_eq in Eg | apply Qeq_bool_neq in Eg];
    (destruct (Qeq_bool (rpm (motor d j)) 0) eqn:Er;
     [apply Qeq_bool_eq in Er | apply Qeq_bool_neq in Er]);
    cbn [negb].
  - split; [intros Hg; contradiction|].
    split; [intros _; repeat split; first [reflexivity | ring]|].
    rewrite Er. ring.
  - split; [intros Hg; contradiction|].
    split; [intros _; repeat split; first [reflexivity | ring | field]|].
    field.
  - split; [intros _; field; exact Eg|].
    split; [intros Hg; contradiction|].
    rewrite Er. ring.
  - split; [intros _; field; exact Eg|].
    split; [intros Hg; contradiction|].
    field. exact Eg.
Qed.

Lemma gearing_round_trip_witness :
  exists rs r,
    performCalculations dummy_Q = Results rs /\
    nth_error rs (5 - 1) = Some r /\
    (~ (gearRatio (motor dummy_Q 1) == 0)%Q ->
     (T_before r * gearRatio (motor dummy_Q 1) == T_total r)%Q) /\
    ((gearRatio (motor dummy_Q 1) == 0)%Q ->
     (T_before r == 0)%Q /\ (T_before_sf r == 0)%Q /\
     (P r == 0)%Q /\ (P_sf r == 0)%Q) /\
    (P r * 9550 == T_before r * rpm (motor dummy_Q 1) * 1000)%Q.
Proof.
  apply (gearing_round_trip dummy_Q 1); [prove_valid | lia].
Defined.

(** ** The form *)

Lemma float_leb_ltb_eqb (x y : float) :
  PrimFloat.leb x y = true -> PrimFloat.ltb x y = false ->
  PrimFloat.eqb x y = true.
Proof.
  rewrite leb_spec, ltb_spec, eqb_spec. unfold SFleb, SFltb, SFeqb.
  destruct (SFcompare (Prim2SF x) (Prim2SF y)) as [[| |]|];
    intros H1 H2; first [reflexivity | discriminate].
Qed.

(** Every indexed check of validation is about one of the six links or
    motors. *)
Lemma validation_order_bound (c : Check) :
  In c validation_order ->
  match c with
  | PayloadMass | LinkDensity | LinkCount | MotorCount => True
  | LinkLength i | LinkRadius i | MotorMass i | MotorBodyLength i
  | MotorPivotPosition i | MotorRpm i | MotorGearRatio i
  | MotorSafetyFactor i => i < 6
  end.
Proof.
  unfold validation_order. cbn. intros H.
  repeat (destruct H as [<-|H]; [first [exact I | lia]|]).
  contradiction.
Qed.

Section Handler.

Variable parseFloat : string -> float.

(** Whatever [parseFloat] returns, the handler gives a number other than
    NaN, and gives no negative zero. *)
Lemma onChange_number (v : string) :
  is_nan (onChange parseFloat v) = false /\
  (PrimFloat.eqb (onChange parseFloat v) 0 = true ->
   onChange parseFloat v = 0%float).
Proof.
  unfold onChange, or_number, truthy.
  destruct (String.eqb v EmptyString); [split; reflexivity|].
  destruct (is_nan (parseFloat v)) eqn:En; cbn [orb negb];
    [split; reflexivity|].
  destruct (PrimFloat.eqb (parseFloat v) 0) eqn:Ez; cbn [negb];
    [split; reflexivity|].
  split; [exact En | intros H; rewrite H in Ez; discriminate Ez].
Qed.

Lemma typed_in_nan_free (d : InputData float) :
  typed_in parseFloat d -> nan_free d.
Proof.
  intros ((vp & Hp) & (vr & Hr) & Hl & Hm).
  split; [rewrite Hp; apply onChange_number|].
  split; [rewrite Hr; apply onChange_number|].
  split.
  - eapply Forall_impl; [|exact Hl]. intros l ((v1 & H1) & (v2 & H2)).
    rewrite H1, H2. split; apply onChange_number.
  - eapply Forall_impl; [|exact Hm].
    intros m ((v1 & H1) & (v2 & H2) & (v3 & H3) & (v4 & H4) & (v5 & H5)
              & (v6 & H6)).
    rewrite H1, H2, H3, H4, H5, H6. repeat split; apply onChange_number.
Qed.

(** X7. Whatever [parseFloat] returns, an input every number of which comes
    out of the handler of the form carries no NaN, and the function decides
    it by the constraints: it returns the six results when the input meets
    every constraint, and every error that it reports is the message of a
    constraint that the input does not meet. *)
Theorem typed_in_input_is_decided (d : InputData float) :
  typed_in parseFloat d ->
  nan_free d /\
  (Forall (fun c => meets d c = true) validation_order ->
   performCalculations d
   = Results (map (joint_result d) [5; 4; 3; 2; 1; 0])) /\
  (forall msg, performCalculations d = ErrorObject msg ->
   exists c, In c validation_order /\ meets d c = false /\ msg = message c).
Proof.
  intros Hd. pose proof (typed_in_nan_free d Hd) as Hnan.
  pose proof (nan_free_decisive d Hnan) as Hdec.
  split; [exact Hnan|]. split.
  - intros Hall. apply performCalculations_valid, passes_validation_iff.
    unfold first_violation. apply find_none_iff.
    rewrite Forall_forall in *. intros c Hc.
    rewrite (Hdec c Hc), (Hall c Hc). reflexivity.
  - intros msg. rewrite performCalculations_closed_form.
    destruct (first_violation d) as [c|] eqn:E; [|discriminate].
    intros [= <-].
    destruct (find_split _ _ _ E) as (pre & post & Hsplit & _ & Hc).
    assert (Hin : In c validation_order)
      by (rewrite Hsplit; apply in_elt).
    exists c. split; [exact Hin|]. split; [|reflexivity].
    rewrite (Hdec c Hin) in Hc. now apply negb_true_iff in Hc.
Qed.

End Handler.

Lemma typed_in_input_is_decided_witness :
  typed_in sample_parseFloat defaultValues /\
  nan_free defaultValues /\
  (Forall (fun c => meets defaultValues c = true) validation_order ->
   performCalculations defaultValues
   = Results (map (joint_result defaultValues) [5; 4; 3; 2; 1; 0])) /\
  (forall msg, performCalculations defaultValues = ErrorObject msg ->
   exists c, In c validation_order /\ meets defaultValues c = false
             /\ msg = message c).
Proof.
  assert (H0 : exists v, 0%float = onChange sample_parseFloat v)
    by (exists EmptyString; reflexivity).
  assert (H1 : exists v, 1%float = onChange sample_parseFloat v)
    by (exists "1"%string; vm_compute; reflexivity).
  assert (H : typed_in sample_parseFloat defaultValues).
  { unfold typed_in, defaultValues. cbn [m_payload density links motors repeat].
    split; [exact H0|]. split; [exact H0|].
    split; repeat constructor; cbn; assumption. }
  split; [exact H|].
  apply (typed_in_input_is_decided sample_parseFloat defaultValues H).
Defined.

Section Schema.

Variable z_number_min : float -> float -> bool.

(** What both Zod 3 and Zod 4 give: an accepted value is a number other
    than NaN that is not below the minimum. *)
Hypothesis z_number_min_sound :
  forall m x, z_number_min m x = true ->
              is_nan x = false /\ PrimFloat.ltb x m = false.

Lemma formSchema_fields (d : InputData float) :
  formSchema z_number_min d = true ->
  List.length (links d) = 6 /\ List.length (motors d) = 6 /\
  z_number_min 0 (m_payload d) = true /\ z_number_min 0 (density d) = true /\
  forall i, i < 6 ->
    linkSchema z_number_min (link d i) = true /\
    motorSchema z_number_min (motor d i) = true.
Proof.
  unfold formSchema. rewrite !andb_true_iff, !Nat.eqb_eq.
  intros (((Hp & Hr) & Hl & Hnl) & Hm & Hnm).
  repeat split; try assumption.
  - rewrite forallb_forall in Hl. apply Hl, nth_In. lia.
  - rewrite forallb_forall in Hm. apply Hm, nth_In. lia.
Qed.

Lemma linkSchema_sound (l : Link float) :
  linkSchema z_number_min l = true ->
  (is_nan (length l) = false /\ PrimFloat.ltb (length l) 0 = false) /\
  (is_nan (radius l) = false /\ PrimFloat.ltb (radius l) 0 = false).
Proof.
  unfold linkSchema. intros H.
  apply andb_prop in H as (H1 & H2).
  split; now apply z_number_min_sound.
Qed.

Lemma motorSchema_sound (m : Motor float) :
  motorSchema z_number_min m = true ->
  (is_nan (mass m) = false /\ PrimFloat.ltb (mass m) 0 = false) /\
  (is_nan (bodyLength m) = false /\ PrimFloat.ltb (bodyLength m) 0 = false) /\
  (is_nan (pivotPosition m) = false
   /\ PrimFloat.ltb (pivotPosition m) 0 = false) /\
  (is_nan (rpm m) = false /\ PrimFloat.ltb (rpm m) 0 = false) /\
  (is_nan (gearRatio m) = false /\ PrimFloat.ltb (gearRatio m) 0 = false) /\
  (is_nan (safetyFactor m) = false
   /\ PrimFloat.ltb (safetyFactor m) 1 = false).
Proof.
  unfold motorSchema. intros H.
  apply andb_prop in H as (H & H6). apply andb_prop in H as (H & H5).
  apply andb_prop in H as (H & H4). apply andb_prop in H as (H & H3).
  apply andb_prop in H as (H1 & H2).
  repeat (split; [now apply z_number_min_sound|]).
  now apply z_number_min_sound.
Qed.

(** X8. The schema of the form lets through zero lengths and zero radii of
    links, and nothing else that the function rejects: on an input that the
    schema accepts, the function returns the six results, or rejects a link
    [i] whose length is zero, or whose radius is zero, with the message of
    that link. *)
Theorem schema_leaves_zero_links (d : InputData float) :
  formSchema z_number_min d = true ->
  performCalculations d = Results (map (joint_result d) [5; 4; 3; 2; 1; 0])
  \/ exists i, i < 6 /\
       ((PrimFloat.eqb (length (link d i)) 0 = true /\
         performCalculations d = ErrorObject (message (LinkLength i))) \/
        (PrimFloat.eqb (radius (link d i)) 0 = true /\
         performCalculations d = ErrorObject (message (LinkRadius i)))).
Proof.
  intros Hs.
  destruct (formSchema_fields d Hs) as (Hnl & Hnm & Hp & Hr & Hf).
  rewrite performCalculations_closed_form.
  destruct (first_violation d) as [c|] eqn:E; [right | now left].
  destruct (find_split _ _ _ E) as (pre & post & Hsplit & _ & Hc).
  assert (Hin : In c validation_order) by (rewrite Hsplit; apply in_elt).
  pose proof (validation_order_bound c Hin) as Hb.
  apply z_number_min_sound in Hp, Hr.
  assert (Hfields : forall i, i < 6 ->
            ((is_nan (length (link d i)) = false
              /\ PrimFloat.ltb (length (link d i)) 0 = false) /\
             (is_nan (radius (link d i)) = false
              /\ PrimFloat.ltb (radius (link d i)) 0 = false)) /\
            PrimFloat.ltb (mass (motor d i)) 0 = false /\
            PrimFloat.ltb (bodyLength (motor d i)) 0 = false /\
            PrimFloat.ltb (pivotPosition (motor d i)) 0 = false /\
            PrimFloat.ltb (rpm (motor d i)) 0 = false /\
            PrimFloat.ltb (gearRatio (motor d i)) 0 = false /\
            PrimFloat.ltb (safetyFactor (motor d i)) 1 = false).
  { intros i Hi. destruct (Hf i Hi) as (Hl & Hm).
    split; [exact (linkSchema_sound _ Hl)|].
    destruct (motorSchema_sound _ Hm)
      as ((_ & H1) & (_ & H2) & (_ & H3) & (_ & H4) & (_ & H5) & (_ & H6)).
    repeat split; assumption. }
  destruct c as [| | | |i|i|i|i|i|i|i|i];
    cbn [violated ltb leb lit_0 lit_1 JsNumber_float] in Hc.
  - rewrite (proj2 Hp) in Hc. discriminate Hc.
  - rewrite (proj2 Hr) in Hc. discriminate Hc.
  - rewrite Hnl in Hc. discriminate Hc.
  - rewrite Hnm in Hc. discriminate Hc.
  - destruct (Hfields i Hb) as (((_ & Hl1) & _) & _).
    exists i. split; [exact Hb|]. left. split; [|reflexivity].
    apply float_leb_ltb_eqb; [exact Hc | exact Hl1].
  - destruct (Hfields i Hb) as ((_ & (_ & Hl2)) & _).
    exists i. split; [exact Hb|]. right. split; [|reflexivity].
    apply float_leb_ltb_eqb; [exact Hc | exact Hl2].
  - destruct (Hfields i Hb) as (_ & H1 & _).
    rewrite H1 in Hc. discriminate Hc.
  - destruct (Hfields i Hb) as (_ & _ & H2 & _).
    rewrite H2 in Hc. discriminate Hc.
  - destruct (Hfields i Hb) as (_ & _ & _ & H3 & _).
    rewrite H3 in Hc. discriminate Hc.
  - destruct (Hfields i Hb) as (_ & _ & _ & _ & H4 & _).
    rewrite H4 in Hc. discriminate Hc.
  - destruct (Hfields i Hb) as (_ & _ & _ & _ & _ & H5 & _).
    rewrite H5 in Hc. discriminate Hc.
  - destruct (Hfields i Hb) as (_ & _ & _ & _ & _ & _ & H6).
    rewrite H6 in Hc. discriminate Hc.
Qed.

End Schema.

Lemma zod3_number_min_sound (m x : float) :
  zod3_number_min m x = true ->
  is_nan x = false /\ PrimFloat.ltb x m = false.
Proof.
  unfold zod3_number_min. rewrite andb_true_iff, !negb_true_iff. tauto.
Qed.

Lemma schema_leaves_zero_links_witness :
  formSchema zod3_number_min defaultValues = true /\
  (performCalculations defaultValues
   = Results (map (joint_result defaultValues) [5; 4; 3; 2; 1; 0])
   \/ exists i, i < 6 /\
        ((PrimFloat.eqb (length (link defaultValues i)) 0 = true /\
          performCalculations defaultValues
          = ErrorObject (message (LinkLength i))) \/
         (PrimFloat.eqb (radius (link defaultValues i)) 0 = true /\
          performCalculations defaultValues
          = ErrorObject (message (LinkRadius i))))).
Proof.
  split; [vm_compute; reflexivity|].
  apply (schema_leaves_zero_links zod3_number_min zod3_number_min_sound
           defaultValues).
  vm_compute; reflexivity.
Defined.

(** ** The page, the table and the export *)

Lemma map_mapi_from {A B C : Type} (g : B -> C) (f : A -> nat -> B)
  (i : nat) (xs : list A) :
  map g (mapi_from i f xs) = mapi_from i (fun x k => g (f x k)) xs.
Proof.
  revert i. induction xs as [|x xs IH]; intros i; cbn; [reflexivity|].
  now rewrite IH.
Qed.

Lemma Forall_mapi_from {A B : Type} (Q : B -> Prop) (f : A -> nat -> B)
  (i : nat) (xs : list A) :
  (forall x k, Q (f x k)) -> Forall Q (mapi_from i f xs).
Proof.
  intros H. revert i.
  induction xs as [|x xs IH]; intros i; cbn; constructor; auto.
Qed.

Section PageProperties.

Context {num : Type} {N : JsNumber num}.
Variable toFixed2 : num -> string.

(** X9. After a calculation the page never shows nothing: it shows the
    message of the first check that the input fails, or a table of six
    rows in which the row labelled [n], for [n] from 1 to 6, holds the
    formatted figures of joint [6 - n], so that the row labelled 1 is the
    joint at the end effector and the row labelled 6 the joint at the
    base. *)
Theorem page_after_calculation (d : InputData num) :
  Home toFixed2 (handleCalculate d) =
  match first_violation d with
  | Some c => ErrorText (message c)
  | None =>
      Table (map (fun n => {| motor_label := n;
                              figures :=
                                formatted toFixed2 (joint_result d (6 - n)) |})
                 [1; 2; 3; 4; 5; 6])
  end.
Proof.
  unfold handleCalculate, Home.
  rewrite performCalculations_closed_form.
  destruct (first_violation d); reflexivity.
Qed.

(** X10. Whatever the state of the page, the sheet that the export builds
    is the header followed by the rows that the page shows in its table,
    cell by cell, and none when the page shows no table; every row of the
    sheet has seven cells. *)
Theorem export_agrees_with_table (results : ResultsState) :
  resultData toFixed2 results
  = sheet_header :: map cells_of_row (rows_of_view (Home toFixed2 results))
  /\ Forall (fun row => List.length row = 7) (resultData toFixed2 results).
Proof.
  destruct results as [[motorResults|error]|]; cbn [resultData Home rows_of_view map].
  - split.
    + f_equal. unfold ResultsTable, mapi. rewrite map_mapi_from.
      reflexivity.
    + constructor; [reflexivity|].
      apply Forall_mapi_from. reflexivity.
  - split; [reflexivity | repeat constructor].
  - split; [reflexivity | repeat constructor].
Qed.

End PageProperties.

(** ** Scaling the masses *)

Section Scaling.

Local Open Scope Q_scope.

Variable d : InputData Q.
Variable c : Q.
Hypothesis d_valid : passes_validation d.
Hypothesis c_nonneg : 0 <= c.

Lemma scale_masses_motor (k : nat) :
  (k < 6)%nat ->
  motor (scale_masses c d) k
  = {| mass := c * mass (motor d k);
       bodyLength := bodyLength (motor d k);
       pivotPosition := pivotPosition (motor d k);
       rpm := rpm (motor d k);
       gearRatio := gearRatio (motor d k);
       safetyFactor := safetyFactor (motor d k) |}.
Proof.
  intros Hk. destruct d_valid as (_ & _ & _ & Hm & _).
  unfold motor, scale_masses. cbn [motors].
  set (f := fun mo : Motor Q => _).
  rewrite (nth_indep _ _ (f no_motor))
    by (rewrite length_map, Hm; exact Hk).
  rewrite map_nth. reflexivity.
Qed.

Lemma scale_masses_spec_S (k : nat) :
  spec_S (scale_masses c d) k = spec_S d k.
Proof.
  induction k as [|k IH]; cbn [spec_S]; [reflexivity|].
  now rewrite IH.
Qed.

Lemma scale_masses_valid : passes_validation (scale_masses c d).
Proof.
  pose proof (proj1 (passes_validation_satisfied d) d_valid) as H.
  apply passes_validation_satisfied.
  rewrite Forall_forall in *. intros k Hk.
  pose proof (validation_order_bound k Hk) as Hb.
  specialize (H k Hk).
  destruct k; cbn [satisfied] in *;
    rewrite ?scale_masses_motor by exact Hb;
    cbn [mass bodyLength pivotPosition rpm gearRatio safetyFactor];
    first [ exact H
          | apply Qmult_le_0_compat; [exact c_nonneg | exact H]
          | destruct d_valid as (_ & _ & Hl & Hm & _);
            cbn [scale_masses links motors]; rewrite ?length_map;
            assumption ].
Qed.

Lemma scale_masses_spec_term (j : nat) (t : Term) :
  (j < 6)%nat -> term_in_range t ->
  spec_term (scale_masses c d) j t == c * spec_term d j t.
Proof.
  intros Hj Ht.
  destruct t as [|k|k]; cbn [spec_term term_in_range] in *;
    unfold spec_W_payload, spec_W_link, spec_W_motor, pivot;
    rewrite ?scale_masses_spec_S, ?scale_masses_motor by assumption;
    cbn [mass bodyLength pivotPosition scale_masses m_payload density];
    change (link (scale_masses c d)) with (link d); q_ops;
    change (@sqr Q JsNumber_Q) with (fun x : Q => x * x); cbv beta; ring.
Qed.

Lemma total_scale (f g : Term -> Q) (ts : list Term) :
  (forall t, In t ts -> f t == c * g t) ->
  total (map f ts) == c * total (map g ts).
Proof.
  induction ts as [|t ts IH]; intros H; cbn [map].
  - unfold total; cbn; q_ops. ring.
  - rewrite !total_cons, (H t (or_introl eq_refl)), IH.
    + ring.
    + intros u Hu. apply H. now right.
Qed.

Lemma scale_masses_T_total (j : nat) :
  (j < 6)%nat ->
  T_total (joint_result (scale_masses c d) j)
  == c * T_total (joint_result d j).
Proof.
  intros Hj. rewrite !T_total_spec_torque by exact Hj.
  unfold spec_torque. apply total_scale. intros t Ht.
  apply scale_masses_spec_term; [exact Hj|].
  destruct (spec_terms_range j t Hj Ht)
    as [->|[(k & -> & Hk)|(k & -> & Hk)]]; cbn; lia.
Qed.

End Scaling.

(** X11. In exact arithmetic the results are linear in the masses: on an
    input that passes validation, multiplying the payload mass, the density
    of the links and the mass of every motor by a factor [c >= 0] gives an
    input that passes validation too, and every figure of every joint, the
    torques and the powers, with and without safety factor, is multiplied
    by [c]. *)
Theorem results_scale_with_masses (d : InputData Q) (c : Q) (j : nat) :
  passes_validation d -> (0 <= c)%Q -> (j < 6)%nat ->
  exists rs rs' r r',
    performCalculations d = Results rs /\
    performCalculations (scale_masses c d) = Results rs' /\
    nth_error rs (5 - j) = Some r /\ nth_error rs' (5 - j) = Some r' /\
    (T_total r' == c * T_total r)%Q /\ (T_sf r' == c * T_sf r)%Q /\
    (T_before r' == c * T_before r)%Q /\
    (T_before_sf r' == c * T_before_sf r)%Q /\
    (P r' == c * P r)%Q /\ (P_sf r' == c * P_sf r)%Q.
Proof.
  intros H Hc Hj.
  exists (map (joint_result d) [5; 4; 3; 2; 1; 0]).
  exists (map (joint_result (scale_masses c d)) [5; 4; 3; 2; 1; 0]).
  exists (joint_result d j), (joint_result (scale_masses c d) j).
  split; [apply (performCalculations_valid d H)|].
  split; [apply performCalculations_valid, (scale_masses_valid d c H Hc)|].
  split; [now apply nth_error_joint_results|].
  split; [now apply nth_error_joint_results|].
  pose proof (scale_masses_T_total d c H j Hj) as HT.
  cbn [joint_result T_total T_sf T_before T_before_sf P P_sf] in *.
  set (T' := sum_left (map (spec_term (scale_masses c d) j)
                           (summation_order j))) in *.
  set (T := sum_left (map (spec_term d j) (summation_order j))) in *.
  unfold spec_power, spec_T_before.
  rewrite (scale_masses_motor d c H j Hj).
  cbn [rpm gearRatio safetyFactor neqb JsNumber_Q]. q_ops.
  change (@lit_1000 Q JsNumber_Q) with 1000%Q.
  change (@lit_9550 Q JsNumber_Q) with 9550%Q.
  destruct (Qeq_bool (gearRatio (motor d j)) 0) eqn:Eg;
    [|apply Qeq_bool_neq in Eg];
    destruct (Qeq_bool (rpm (motor d j)) 0) eqn:Er; cbn [negb];
    rewrite ?HT; repeat split; first [ring | field; exact Eg].
Qed.

Lemma results_scale_with_masses_witness :
  exists rs rs' r r',
    performCalculations dummy_Q = Results rs /\
    performCalculations (scale_masses 2%Q dummy_Q) = Results rs' /\
    nth_error rs (5 - 0) = Some r /\ nth_error rs' (5 - 0) = Some r' /\
    (T_total r' == 2 * T_total r)%Q /\ (T_sf r' == 2 * T_sf r)%Q /\
    (T_before r' == 2 * T_before r)%Q /\
    (T_before_sf r' == 2 * T_before_sf r)%Q /\
    (P r' == 2 * P r)%Q /\ (P_sf r' == 2 * P_sf r)%Q.
Proof.
  apply (results_scale_with_masses dummy_Q 2%Q 0);
    [prove_valid | discriminate | lia].
Defined.
